(** * Memory manager of the vHive orchestrator: userfault page serving

    A shallow embedding of the Go package [manager] (the file that declares
    [MemoryManager], [RegisterVM], [AddInstance], [RemoveInstance],
    [pollingLoop], [installRegion], [servePageFault] and
    [extractPageFaultAddress]) together with the properties its
    specification states about it.

    Conventions of the embedding.
    - A Go [uint64] is a [Z] in [0, 2^64); every operation of the source
      that can wrap is followed by [uint64] or [int64].
    - A Go map is a [gmap]; a [[]byte] obtained from [mmap] is its slice
      header (host address of byte 0 and length), since the code only
      takes addresses of its elements.
    - The maps of the manager hold [*SnapshotState]; while a VM is active
      its state is referenced from [activeFdState] only, so a mutation
      through the pointer is an update of that map entry.
    - [log.Fatal]/[log.Fatalf] (logrus: log, then exit the process) and a
      run-time panic both end the process; they are kept apart in
      [outcome].
    - Answers of the kernel and of the hypervisor are arguments of the
      operation that asks for them; the system calls an operation issues
      are returned as a list of [Action]s.
    - A goroutine that the loop starts is kept as a task of the world;
      it runs as a step of its own, at any later point.  The tasks only
      read the state of their descriptor, which the loop has latched
      before it starts the first of them, so steps of whole events and
      whole tasks describe every interleaving. *)

From Stdlib Require Import ZArith Lia List.
From Stdlib.Strings Require Import Byte.
From stdpp Require Import gmap strings list fin_maps.

Local Open Scope Z_scope.

(** ** Machine integers *)

Module Word.

Definition uint64 (z : Z) : Z := z mod 2 ^ 64.

(** Two's complement reading of the low 64 bits. *)
Definition int64 (z : Z) : Z := (z + 2 ^ 63) mod 2 ^ 64 - 2 ^ 63.

Definition uint8 (b : byte) : Z := Z.of_N (Byte.to_N b).

End Word.

Import Word.

(** ** Results of a call that may end the process *)

Inductive outcome (A : Type) : Type :=
| Done (a : A)                (* the call returns *)
| Fatal (msg : string)        (* log.Fatal / log.Fatalf *)
| Panic (msg : string)        (* run-time panic *)
| Blocked.                    (* a blocking system call that has nothing to deliver *)

Arguments Done {A} a.
Arguments Fatal {A} msg.
Arguments Panic {A} msg.
Arguments Blocked {A}.

#[global] Instance outcome_bind : MBind outcome := fun A B f o =>
  match o with
  | Done a => f a
  | Fatal msg => Fatal msg
  | Panic msg => Panic msg
  | Blocked => Blocked
  end.

(** Go's [error]: [nil] is [None]. *)
Inductive error : Type :=
| errors_New (msg : string)
| Errno (e : Z).

(** ** Slices *)

(** Header of a [[]byte]: host address of element 0 and length. *)
Record Slice : Type := mkSlice { sl_ptr : Z; sl_len : Z }.

Definition nil_slice : Slice := mkSlice 0 0.

(** [&s[i]] for an unsigned index: bounds-checked, then the address. *)
Definition index_addr (s : Slice) (i : Z) : outcome Z :=
  if (0 <=? i) && (i <? sl_len s) then Done (sl_ptr s + i)
  else Panic "index out of range".

(** ** Snapshot state *)

(** Modelled from the spec: the configuration handed to [RegisterVM]
    ([SnapshotStateCfg] is declared in a file that is not part of the
    sources); section 3 lists its fields. *)
Record SnapshotStateCfg : Type := mkCfg {
  cfg_vmID : string;
  cfg_guestMemFilePath : string;
  cfg_guestMemSize : Z;
  cfg_workingSetPath : option string
}.

(** Modelled from the spec: the struct [SnapshotState] is declared in a
    file that is not part of the sources.  The fields are the ones the
    manager reads and writes: [guestMemFileName], [guestMemSize],
    [guestMem], [UserFaultFD] (a [*os.File], [None] for nil),
    [startAddressOnce] (a [sync.Once], [true] once its [Do] has run) and
    [startAddress]. *)
Record SnapshotState : Type := mkState {
  guestMemFileName : string;
  guestMemSize : Z;
  guestMem : Slice;
  UserFaultFD : option Z;
  startAddressOnce : bool;
  startAddress : Z
}.

(** Modelled from the spec: [NewSnapshotState] is not part of the sources;
    section 4.6 says Register constructs the state from the
    configuration.  Everything the configuration does not give has Go's
    zero value. *)
Definition NewSnapshotState (cfg : SnapshotStateCfg) : SnapshotState :=
  {| guestMemFileName := cfg_guestMemFilePath cfg;
     guestMemSize := cfg_guestMemSize cfg;
     guestMem := nil_slice;
     UserFaultFD := None;
     startAddressOnce := false;
     startAddress := 0 |}.

Definition set_guestMem (s : SnapshotState) (g : Slice) : SnapshotState :=
  {| guestMemFileName := guestMemFileName s;
     guestMemSize := guestMemSize s;
     guestMem := g;
     UserFaultFD := UserFaultFD s;
     startAddressOnce := startAddressOnce s;
     startAddress := startAddress s |}.

Definition set_UserFaultFD (s : SnapshotState) (f : option Z) : SnapshotState :=
  {| guestMemFileName := guestMemFileName s;
     guestMemSize := guestMemSize s;
     guestMem := guestMem s;
     UserFaultFD := f;
     startAddressOnce := startAddressOnce s;
     startAddress := startAddress s |}.

(** [state.startAddressOnce.Do(func() { state.startAddress = address })]:
    the function runs on the first call only. *)
Definition latchStartAddress (s : SnapshotState) (address : Z) : SnapshotState :=
  if startAddressOnce s then s
  else {| guestMemFileName := guestMemFileName s;
          guestMemSize := guestMemSize s;
          guestMem := guestMem s;
          UserFaultFD := UserFaultFD s;
          startAddressOnce := true;
          startAddress := address |}.

(** Method [Fd] of [os.File]: the descriptor, and [^uintptr(0)] on a nil file,
    which [int(...)] reads as -1. *)
Definition File_Fd (f : option Z) : Z :=
  match f with
  | Some n => n
  | None => -1
  end.

(** ** System calls and their answers *)

Record uffdio_copy : Type := mk_uffdio_copy {
  uc_dst : Z;
  uc_src : Z;
  uc_len : Z;
  uc_mode : Z;
  uc_copy : Z
}.

Inductive Action : Type :=
| SysOpen (path : string)
| SysMmap (length : Z)
| SysMunmap (ptr : Z)
| SysClose (fd : Z)
| SysEpollCtlAdd (epfd fd : Z)
| SysEpollCtlDel (epfd fd : Z)
| SysRead (fd : Z)
| SysUffdioCopy (fd : Z) (arg : uffdio_copy)
| GetUFFD.

(** What a [read] on a userfault descriptor answers: an error, or the
    bytes of the message it has for the caller. *)
Inductive ReadAnswer : Type :=
| ReadErr (e : Z)
| ReadOk (data : list byte).

(** [syscall.Read(fd, buf)]: at most [len(buf)] bytes are copied to the
    front of [buf]; the result is the count, the error and the buffer
    after the call. *)
Definition syscall_Read (a : ReadAnswer) (buf : list byte) : Z * option error * list byte :=
  match a with
  | ReadErr e => (-1, Some (Errno e), buf)
  | ReadOk data =>
      let d := take (length buf) data in
      (Z.of_nat (length d), None, d ++ drop (length d) buf)
  end.

(** [binary.LittleEndian.Uint64(b)]: panics unless [b] has 8 bytes, then
    [uint64(b[0]) | uint64(b[1])<<8 | ... | uint64(b[7])<<56]. *)
Definition LittleEndian_Uint64 (b : list byte) : outcome Z :=
  match b with
  | b0 :: b1 :: b2 :: b3 :: b4 :: b5 :: b6 :: b7 :: _ =>
      Done (Z.lor (uint8 b0)
           (Z.lor (Z.shiftl (uint8 b1) 8)
           (Z.lor (Z.shiftl (uint8 b2) 16)
           (Z.lor (Z.shiftl (uint8 b3) 24)
           (Z.lor (Z.shiftl (uint8 b4) 32)
           (Z.lor (Z.shiftl (uint8 b5) 40)
           (Z.lor (Z.shiftl (uint8 b6) 48)
                  (Z.shiftl (uint8 b7) 56))))))))
  | _ => Panic "index out of range"
  end.

(** [s[n:]]: panics when [n] exceeds the length. *)
Definition slice_from (s : list byte) (n : nat) : outcome (list byte) :=
  if (n <=? length s)%nat then Done (drop n s) else Panic "slice bounds out of range".

(** [s[i]] on a byte slice. *)
Definition byte_at (s : list byte) (i : nat) : outcome byte :=
  match s !! i with
  | Some b => Done b
  | None => Panic "index out of range"
  end.

(** ** The manager *)

Record MemoryManager : Type := mkManager {
  inactive : gmap string SnapshotState;
  activeFdState : gmap Z SnapshotState;   (* indexed by FD *)
  activeVmFd : gmap string Z;             (* indexed by vmID *)
  epfd : Z
}.

(** [NewMemoryManager]: three empty maps; [epfd] is the handle that
    [EpollCreate1] gave to [pollingLoop]. *)
Definition NewMemoryManager (epfd0 : Z) : MemoryManager :=
  {| inactive := ∅; activeFdState := ∅; activeVmFd := ∅; epfd := epfd0 |}.

(** Answer of the file system and of [mmap] to [mapGuestMemory]. *)
Inductive MapAnswer : Type :=
| OpenFails (e : Z)
| MmapFails (e : Z)
| Mapped (ptr : Z).

(** What the environment answers during one [AddInstance]: the mapping,
    the file received from the hypervisor ([None]: none was received) and
    the errno of [epoll_ctl] ([None]: success). *)
Record AddAnswers : Type := mkAddAnswers {
  aa_map : MapAnswer;
  aa_uffd : option Z;
  aa_epoll_ctl : option Z
}.

(** What the kernel answers during one [RemoveInstance]. *)
Record RemoveAnswers : Type := mkRemoveAnswers {
  ra_epoll_ctl : option Z;
  ra_munmap : option Z
}.

Record EpollEvent : Type := mkEpollEvent { Events : Z; Fd : Z; Pad : Z }.

(** Answer of one [epoll_wait]: the ready events, or an errno. *)
Record WaitAnswer : Type := mkWaitAnswer {
  wa_ready : list EpollEvent;
  wa_err : option Z
}.

(** What the event loop runs in: the manager, the messages each
    userfault descriptor still has to deliver, the errno the kernel
    answers to a copy request, the system calls issued so far, and the
    goroutines [servePageFault(fd, address)] that have been started and
    have not run yet. *)
Record World : Type := mkWorld {
  w_mgr : MemoryManager;
  w_pending : gmap Z (list ReadAnswer);
  w_copy_errno : Z -> uffdio_copy -> Z;
  w_trace : list Action;
  w_tasks : list (Z * Z)
}.

(** [s.guestMem, err = unix.Mmap(fd, 0, s.guestMemSize, PROT_READ, MAP_PRIVATE)]
    after [os.OpenFile(s.guestMemFileName, O_RDONLY, 0600)]. *)
Definition mapGuestMemory (s : SnapshotState) (a : MapAnswer)
  : SnapshotState * list Action * option error :=
  match a with
  | OpenFails e => (s, [SysOpen (guestMemFileName s)], Some (Errno e))
  | MmapFails e =>
      (set_guestMem s nil_slice,
       [SysOpen (guestMemFileName s); SysMmap (guestMemSize s)], Some (Errno e))
  | Mapped p =>
      (set_guestMem s (mkSlice p (guestMemSize s)),
       [SysOpen (guestMemFileName s); SysMmap (guestMemSize s)], None)
  end.

(** [unix.Munmap(s.guestMem)]. *)
Definition unmapGuestMemory (s : SnapshotState) (a : option Z) : list Action * option error :=
  ([SysMunmap (sl_ptr (guestMem s))],
   match a with Some e => Some (Errno e) | None => None end).

(** Modelled from the spec: [getUFFD] is not part of the sources.  Section
    4.4: the descriptor is provided by the hypervisor over a socket and
    the state stores it.  When none arrives the field keeps its value. *)
Definition getUFFD (s : SnapshotState) (a : option Z) : SnapshotState :=
  match a with
  | Some f => set_UserFaultFD s (Some f)
  | None => s
  end.

(** [RegisterVM]; the source's [vmID] is the configuration's. *)
Definition RegisterVM (v : MemoryManager) (cfg : SnapshotStateCfg)
  : MemoryManager * option error :=
  let vmID := cfg_vmID cfg in
  match inactive v !! vmID with
  | Some _ => (v, Some (errors_New "VM exists in the memory manager"))
  | None =>
      match activeVmFd v !! vmID with
      | Some _ => (v, Some (errors_New "VM already active in the memory manager"))
      | None =>
          let state := NewSnapshotState cfg in
          ({| inactive := <[vmID := state]> (inactive v);
              activeFdState := activeFdState v;
              activeVmFd := activeVmFd v;
              epfd := epfd v |}, None)
      end
  end.

(** [AddInstance].  The source never binds [state]; it is the entry of
    [inactive] that the first test found.  [v.vmFdMap] is the field
    declared as [activeVmFd], and the descriptor given to [EpollCtl] is
    [fdInt].  The result of [getUFFD] is not looked at. *)
Definition AddInstance (v : MemoryManager) (vmID : string) (k : AddAnswers)
  : MemoryManager * list Action * option error :=
  match inactive v !! vmID with
  | None => (v, [], Some (errors_New "VM not registered with the memory manager"))
  | Some state =>
      match activeVmFd v !! vmID with
      | Some _ => (v, [], Some (errors_New "VM exists in the memory manager"))
      | None =>
          let '(state1, tr1, err) := mapGuestMemory state (aa_map k) in
          match err with
          | Some e =>
              ({| inactive := <[vmID := state1]> (inactive v);
                  activeFdState := activeFdState v;
                  activeVmFd := activeVmFd v;
                  epfd := epfd v |}, tr1, Some e)
          | None =>
              let state2 := getUFFD state1 (aa_uffd k) in
              let fdInt := File_Fd (UserFaultFD state2) in
              let v' := {| inactive := delete vmID (inactive v);
                           activeFdState := <[fdInt := state2]> (activeFdState v);
                           activeVmFd := <[vmID := fdInt]> (activeVmFd v);
                           epfd := epfd v |} in
              let tr := tr1 ++ [GetUFFD; SysEpollCtlAdd (epfd v) fdInt] in
              match aa_epoll_ctl k with
              | Some e => (v', tr, Some (Errno e))
              | None => (v', tr, None)
              end
          end
      end
  end.

(** [FetchState]: not implemented, returns nil. *)
Definition FetchState (v : MemoryManager) (vmID : string) : MemoryManager * option error :=
  (v, None).

Definition getSnapshotState (v : MemoryManager) (fd : Z) : outcome SnapshotState :=
  match activeFdState v !! fd with
  | Some state => Done state
  | None => Fatal "getSnapshotState: fd not found"
  end.

(** [ioctl]: the system call's errno, wrapped when it is not 0. *)
Definition ioctl (errno : Z) : option error :=
  if errno =? 0 then None else Some (Errno errno).

(** [syscall.EpollWait(epfd, events[:], -1)]: the ready events overwrite
    the front of the array; the count, or -1 and the error. *)
Definition EpollWait (events : list EpollEvent) (a : WaitAnswer)
  : list EpollEvent * Z * option error :=
  match wa_err a with
  | Some e => (events, -1, Some (Errno e))
  | None =>
      let r := take (length events) (wa_ready a) in
      (r ++ drop (length r) events, Z.of_nat (length r), None)
  end.

(** A [read] on [fd] in the world: the next message of that descriptor. *)
Definition world_read (w : World) (fd : Z) : outcome (ReadAnswer * World) :=
  match w_pending w !! fd with
  | Some (a :: rest) =>
      Done (a, {| w_mgr := w_mgr w;
                  w_pending := <[fd := rest]> (w_pending w);
                  w_copy_errno := w_copy_errno w;
                  w_trace := w_trace w ++ [SysRead fd];
                  w_tasks := w_tasks w |})
  | _ => Blocked
  end.

(** The array [events] of [pollingLoop] before the first wait. *)
Definition events0 : list EpollEvent := replicate 1000 (mkEpollEvent 0 0 0).

(** The event loop threads the [World] and may end the process. *)
Definition Loop (A : Type) : Type := World -> World * outcome A.

#[global] Instance Loop_ret : MRet Loop := fun A a w => (w, Done a).

#[global] Instance Loop_bind : MBind Loop := fun A B f m w =>
  match m w with
  | (w', Done a) => f a w'
  | (w', Fatal msg) => (w', Fatal msg)
  | (w', Panic msg) => (w', Panic msg)
  | (w', Blocked) => (w', Blocked)
  end.

Definition with_mgr (w : World) (v : MemoryManager) : World :=
  {| w_mgr := v; w_pending := w_pending w;
     w_copy_errno := w_copy_errno w; w_trace := w_trace w;
     w_tasks := w_tasks w |}.

Definition emit (w : World) (a : Action) : World :=
  {| w_mgr := w_mgr w; w_pending := w_pending w;
     w_copy_errno := w_copy_errno w; w_trace := w_trace w ++ [a];
     w_tasks := w_tasks w |}.

Definition with_tasks (w : World) (tasks : list (Z * Z)) : World :=
  {| w_mgr := w_mgr w; w_pending := w_pending w;
     w_copy_errno := w_copy_errno w; w_trace := w_trace w;
     w_tasks := tasks |}.

(** One step of the process: the loop handles the next event of its
    array, or one of the started goroutines runs. *)
Inductive Step : Type :=
| HandleEvent (event : EpollEvent)
| RunTask (i : nat).

(** The manager operations a caller can invoke, with the answers of the
    environment to each. *)
Inductive Op : Type :=
| OpRegisterVM (cfg : SnapshotStateCfg)
| OpAddInstance (vmID : string) (k : AddAnswers)
| OpRemoveInstance (vmID : string) (k : RemoveAnswers)
| OpFetchState (vmID : string).

(** The keys of [inactive] and of [activeVmFd] are disjoint. *)
Definition at_most_one_pool (v : MemoryManager) : Prop :=
  ∀ vmID : string, ¬ (is_Some (inactive v !! vmID) ∧ is_Some (activeVmFd v !! vmID)).

(** A descriptor is a key of [activeFdState] exactly when some VM is
    recorded with it in [activeVmFd]. *)
Definition active_indices_agree (v : MemoryManager) : Prop :=
  ∀ fd : Z, is_Some (activeFdState v !! fd) ↔ ∃ vmID : string, activeVmFd v !! vmID = Some fd.

Definition indices_consistent (v : MemoryManager) : Prop :=
  at_most_one_pool v ∧ active_indices_agree v.

Section Manager.

(** [pageSize] is used by the sources but declared elsewhere: the page
    size of the architecture, [2 ^ pageShift]. *)
Variable pageShift : Z.

(** [C.sizeof_struct_uffd_msg] and [C.const_UFFD_EVENT_PAGEFAULT] come
    from the kernel's headers. *)
Variable sizeof_struct_uffd_msg : nat.
Variable UFFD_EVENT_PAGEFAULT : byte.

(** The last assignment of [RemoveInstance], [v.inactive = state],
    stores a state in a field whose type is a map.  What map the field
    holds afterwards is left open: it is any function of the VM, the
    state and the previous map. *)
Variable assignInactive :
  string -> SnapshotState -> gmap string SnapshotState -> gmap string SnapshotState.

Definition pageSize : Z := 2 ^ pageShift.

(** [installRegion(fd, src, dst, mode, len)]: the request and what
    [ioctl] returns for it. *)
Definition installRegion (fd src dst mode len : Z) (kernel : Z -> uffdio_copy -> Z)
  : Action * option error :=
  let cUC := {| uc_mode := mode;
                uc_copy := 0;
                uc_src := src;
                uc_dst := dst;
                uc_len := uint64 (pageSize * len) |} in
  (SysUffdioCopy fd cUC, ioctl (kernel fd cUC)).

(** [offset := address - state.startAddress] on [uint64]. *)
Definition fault_offset (state : SnapshotState) (address : Z) : Z :=
  uint64 (address - startAddress state).

(** [dst := uint64(int64(address) & ^(int64(pageSize) - 1))]. *)
Definition fault_dst (address : Z) : Z :=
  uint64 (Z.land (int64 address) (Z.lnot (int64 (int64 pageSize - 1)))).

(** [servePageFault]: the copy request it issues; the error of
    [installRegion] is dropped. *)
Definition servePageFault (v : MemoryManager) (fd address : Z)
    (kernel : Z -> uffdio_copy -> Z) : outcome Action :=
  state ← getSnapshotState v fd;
  let offset := fault_offset state address in
  src ← index_addr (guestMem state) offset;
  let dst := fault_dst address in
  let mode := uint64 0 in
  Done (fst (installRegion fd src dst mode 1 kernel)).

(** [extractPageFaultAddress], given what the [read] answers. *)
Definition extractPageFaultAddress (a : ReadAnswer) : outcome Z :=
  let '(nread, err, goMsg) :=
    syscall_Read a (replicate sizeof_struct_uffd_msg x00) in
  if match err with Some _ => true | None => false end
     || negb (nread =? Z.of_nat (length goMsg))
  then Fatal "Read uffd_msg failed"
  else
    event ← byte_at goMsg 0;
    if negb (uint8 event =? uint8 UFFD_EVENT_PAGEFAULT)
    then Fatal "Received wrong event type"
    else
      tail ← slice_from goMsg 16;
      LittleEndian_Uint64 tail.

(** [RemoveInstance].  [v.vmFdMap] and [v.snapStateMap] are the fields
    declared as [activeVmFd] and [activeFdState]; the error tested after
    [EpollCtl] is the one it returned. *)
Definition RemoveInstance (v : MemoryManager) (vmID : string) (k : RemoveAnswers)
  : MemoryManager * list Action * option error :=
  match inactive v !! vmID with
  | None => (v, [], Some (errors_New "VM not registered with the memory manager"))
  | Some _ =>
      match activeVmFd v !! vmID with
      | None => (v, [], Some (errors_New "Failed to find fd"))
      | Some fdInt =>
          match activeFdState v !! fdInt with
          | None => (v, [], Some (errors_New "Failed to find snapshot state"))
          | Some state =>
              let del := SysEpollCtlDel (epfd v) fdInt in
              match ra_epoll_ctl k with
              | Some e => (v, [del], Some (Errno e))
              | None =>
                  match unmapGuestMemory state (ra_munmap k) with
                  | (tr, Some e) => (v, del :: tr, Some e)
                  | (tr, None) =>
                      ({| inactive := assignInactive vmID state (inactive v);
                          activeFdState := delete fdInt (activeFdState v);
                          activeVmFd := delete vmID (activeVmFd v);
                          epfd := epfd v |},
                       del :: tr ++ [SysClose (File_Fd (UserFaultFD state))],
                       None)
                  end
              end
          end
      end
  end.

(** One manager operation. *)
Definition apply_op (v : MemoryManager) (o : Op) : MemoryManager :=
  match o with
  | OpRegisterVM cfg => fst (RegisterVM v cfg)
  | OpAddInstance vmID k => fst (fst (AddInstance v vmID k))
  | OpRemoveInstance vmID k => fst (fst (RemoveInstance v vmID k))
  | OpFetchState vmID => fst (FetchState v vmID)
  end.


(** *** The body of [pollingLoop] *)

(** [_, ok := v.activeFdState[fd]; if !ok { log.Fatalf(...) }]. *)
Definition check_active (fd : Z) : Loop unit := fun w =>
  match activeFdState (w_mgr w) !! fd with
  | Some _ => (w, Done tt)
  | None => (w, Fatal "received event from file which is not active")
  end.

(** [address := extractPageFaultAddress(fd)]. *)
Definition read_fault (fd : Z) : Loop Z := fun w =>
  match world_read w fd with
  | Done (a, w') => (w', extractPageFaultAddress a)
  | Fatal msg => (w, Fatal msg)
  | Panic msg => (w, Panic msg)
  | Blocked => (w, Blocked)
  end.

Definition lookup_state (fd : Z) : Loop SnapshotState := fun w =>
  (w, getSnapshotState (w_mgr w) fd).

(** [state.startAddressOnce.Do(...)] on the state [fd] points to. *)
Definition latch (fd : Z) (state : SnapshotState) (address : Z) : Loop unit := fun w =>
  let v := w_mgr w in
  (with_mgr w {| inactive := inactive v;
                 activeFdState := <[fd := latchStartAddress state address]> (activeFdState v);
                 activeVmFd := activeVmFd v;
                 epfd := epfd v |}, Done tt).

(** [go v.servePageFault(fd, address)]: the goroutine is started and the
    loop goes on; when it runs is not the loop's affair. *)
Definition spawn_servePageFault (fd address : Z) : Loop unit := fun w =>
  (with_tasks w (w_tasks w ++ [(fd, address)]), Done tt).

(** The started goroutine number [i] runs [servePageFault] to its end,
    on the manager as it is then.  A panic or a [log.Fatalf] in a
    goroutine ends the process. *)
Definition run_task (i : nat) : Loop unit := fun w =>
  match w_tasks w !! i with
  | None => (w, Done tt)
  | Some (fd, address) =>
      let w1 := with_tasks w (delete i (w_tasks w)) in
      match servePageFault (w_mgr w) fd address (w_copy_errno w) with
      | Done act => (emit w1 act, Done tt)
      | Fatal msg => (w1, Fatal msg)
      | Panic msg => (w1, Panic msg)
      | Blocked => (w1, Blocked)
      end
  end.

Definition serveEvent (event : EpollEvent) : Loop unit :=
  let fd := Fd event in
  _ ← check_active fd;
  address ← read_fault fd;
  state ← lookup_state fd;
  _ ← latch fd state address;
  spawn_servePageFault fd address.

(** [for _, event := range events { ... }]. *)
Fixpoint serveEvents (events : list EpollEvent) : Loop unit :=
  match events with
  | [] => mret tt
  | event :: rest => _ ← serveEvent event; serveEvents rest
  end.

(** A run of the process: the loop handling events of its array, with
    the started goroutines running in between, in any order. *)
Definition run_step (s : Step) : Loop unit :=
  match s with
  | HandleEvent event => serveEvent event
  | RunTask i => run_task i
  end.

Fixpoint run_steps (steps : list Step) : Loop unit :=
  match steps with
  | [] => mret tt
  | s :: rest => _ ← run_step s; run_steps rest
  end.

(** The [default] branch of the [select], as far as the loop itself
    goes: one wait and the loop over the array.  The array outlives the
    iteration. *)
Definition pollingLoop_wake (events : list EpollEvent) (a : WaitAnswer)
  : World -> World * list EpollEvent * outcome unit := fun w =>
  let '(events', nevents, e) := EpollWait events a in
  match e with
  | Some _ => (w, events', Fatal "epoll_wait")
  | None =>
      if nevents <? 1 then (w, events', Panic "Wrong number of events")
      else let '(w', o) := serveEvents events' w in (w', events', o)
  end.

End Manager.

(** ** The manager and the loop together *)

(** [st'] is [st] up to the latch of the base address. *)
Definition same_but_latch (st st' : SnapshotState) : Prop :=
  guestMemFileName st' = guestMemFileName st /\
  guestMemSize st' = guestMemSize st /\
  guestMem st' = guestMem st /\
  UserFaultFD st' = UserFaultFD st.

(** [v'] is [v] up to the latch of the base address in active states. *)
Definition mgr_up_to_latch (v v' : MemoryManager) : Prop :=
  inactive v' = inactive v /\
  activeVmFd v' = activeVmFd v /\
  epfd v' = epfd v /\
  forall fd,
    (activeFdState v !! fd = None /\ activeFdState v' !! fd = None) \/
    (exists st st',
       activeFdState v !! fd = Some st /\ activeFdState v' !! fd = Some st' /\
       same_but_latch st st').

(** Every active state is filed under the number of its own descriptor
    and maps as many bytes as its snapshot has. *)
Definition active_states_filed (v : MemoryManager) : Prop :=
  forall fd st,
    activeFdState v !! fd = Some st ->
    File_Fd (UserFaultFD st) = fd /\ sl_len (guestMem st) = guestMemSize st.

(** Every inactive state is as [NewSnapshotState] left it, up to the
    mapping: never latched, without a descriptor. *)
Definition inactive_states_pristine (v : MemoryManager) : Prop :=
  forall vmID st,
    inactive v !! vmID = Some st ->
    startAddressOnce st = false /\ startAddress st = 0 /\ UserFaultFD st = None.

(** A descriptor of the active index belongs to one VM only. *)
Definition one_vm_per_fd (v : MemoryManager) : Prop :=
  forall vmID1 vmID2 fd,
    activeVmFd v !! vmID1 = Some fd -> activeVmFd v !! vmID2 = Some fd -> vmID1 = vmID2.

(** The indices are consistent and tie each descriptor to one VM. *)
Definition indices_tied (v : MemoryManager) : Prop :=
  indices_consistent v /\ one_vm_per_fd v.

Definition is_read (fd : Z) (a : Action) : bool :=
  match a with
  | SysRead f => f =? fd
  | _ => false
  end.

Definition is_copy (fd : Z) (a : Action) : bool :=
  match a with
  | SysUffdioCopy f _ => f =? fd
  | _ => false
  end.

(** How many reads, and how many copies, a trace has on a descriptor;
    how many started goroutines are for it. *)
Definition reads_on (fd : Z) (t : list Action) : nat :=
  length (List.filter (is_read fd) t).

Definition copies_on (fd : Z) (t : list Action) : nat :=
  length (List.filter (is_copy fd) t).

Definition tasks_on (fd : Z) (tasks : list (Z * Z)) : nat :=
  length (List.filter (fun t => fst t =? fd) tasks).

(** The three together. *)
Definition wellformed (v : MemoryManager) : Prop :=
  indices_consistent v /\ active_states_filed v /\ inactive_states_pristine v.

Section System.

Variable pageShift : Z.
Variable sizeof_struct_uffd_msg : nat.
Variable UFFD_EVENT_PAGEFAULT : byte.
Variable assignInactive :
  string -> SnapshotState -> gmap string SnapshotState -> gmap string SnapshotState.

(** The managers that calls of the four operations and runs of the loop
    body and of its goroutines, in any order and with any answers of the
    environment, lead to from a new manager. *)
Inductive reachable : MemoryManager -> Prop :=
| reach_new (e : Z) : reachable (NewMemoryManager e)
| reach_op (v : MemoryManager) (o : Op) :
    reachable v -> reachable (apply_op assignInactive v o)
| reach_loop (w w' : World) (steps : list Step) (o : outcome unit) :
    reachable (w_mgr w) ->
    run_steps pageShift sizeof_struct_uffd_msg UFFD_EVENT_PAGEFAULT steps w = (w', o) ->
    reachable (w_mgr w').

End System.

(** ** The measurement client of the invoker example *)

Module Invoker.

Section Measure.

(** The generated protobuf types are not part of the sources: a
    duration message, its conversion [AsDuration] to nanoseconds and the
    status [InvocationStatus_COMPLETED]. *)
Variable ProtoDuration : Type.
Variable AsDuration : ProtoDuration -> Z.
Variable InvocationStatus_COMPLETED : Z.

Record Invocation : Type := mkInvocation {
  Status : Z;
  Duration : ProtoDuration
}.

(** One turn of [for _, inv := range res.Invocations]: incomplete
    invocations are skipped, the duration of a completed one is
    appended. *)
Definition End_step (durations : list Z) (inv : Invocation) : list Z :=
  if negb (Status inv =? InvocationStatus_COMPLETED) then durations
  else durations ++ [AsDuration (Duration inv)].

(** [End], given what [EndExperiment] answers: the invocations, or an
    error.  The result [durations] starts nil.  The deferred
    [conn.Close()] does not bear on the result. *)
Definition End (answer : list Invocation + error) : outcome (list Z) :=
  match answer with
  | inr _ => Fatal "failed to end experiment"
  | inl invocations => Done (fold_left End_step invocations [])
  end.

End Measure.

End Invoker.

(** ** A concrete run

    One VM with a snapshot of two pages (4096-byte pages), mapped at host
    address [0x7f0000000000], served through descriptor 7; its first
    fault is at guest address [0x10000000]. *)

Module Scenario.

Definition pageShift : Z := 12.
Definition sizeof_struct_uffd_msg : nat := 32.
Definition UFFD_EVENT_PAGEFAULT : byte := x12.

(** One reading of [v.inactive = state]: the state goes back under its
    VM. *)
Definition assignInactive (vmID : string) (state : SnapshotState)
    (m : gmap string SnapshotState) : gmap string SnapshotState :=
  <[vmID := state]> m.

Definition byte_of_Z (z : Z) : byte :=
  match Byte.of_N (Z.to_N (z mod 256)) with
  | Some b => b
  | None => x00
  end.

Fixpoint le_bytes (n : nat) (z : Z) : list byte :=
  match n with
  | O => []
  | S n' => byte_of_Z z :: le_bytes n' (z / 256)
  end.

(** A [uffd_msg]: the event, 15 bytes up to the payload's address field,
    the address, the rest. *)
Definition uffd_msg (event : byte) (address : Z) : list byte :=
  event :: replicate 15 x00 ++ le_bytes 8 address ++ replicate 8 x00.

Definition pagefault (address : Z) : ReadAnswer :=
  ReadOk (uffd_msg UFFD_EVENT_PAGEFAULT address).

Definition base : Z := 0x10000000.
Definition host : Z := 0x7f0000000000.

Definition cfg_vm1 : SnapshotStateCfg := mkCfg "vm1" "/snap/vm1.mem" 8192 None.

Definition fresh : MemoryManager := NewMemoryManager 3.

Definition registered : MemoryManager := fst (RegisterVM fresh cfg_vm1).

Definition add_ok : AddAnswers := mkAddAnswers (Mapped host) (Some 7) None.

Definition added : MemoryManager := fst (fst (AddInstance registered "vm1" add_ok)).

Definition no_errno : Z -> uffdio_copy -> Z := fun _ _ => 0.

Definition world0 : World :=
  mkWorld added {[ 7 := [pagefault base; pagefault (base + 4096)] ]} no_errno [] [].

(** The world after the first fault of descriptor 7 has been handled. *)
Definition world1 : World :=
  fst (serveEvent sizeof_struct_uffd_msg UFFD_EVENT_PAGEFAULT
         (mkEpollEvent 1 7 0) world0).

Definition latched : MemoryManager := w_mgr world1.

(** The state of vm1 in [latched]. *)
Definition state_vm1 : SnapshotState :=
  {| guestMemFileName := "/snap/vm1.mem";
     guestMemSize := 8192;
     guestMem := mkSlice host 8192;
     UserFaultFD := Some 7;
     startAddressOnce := true;
     startAddress := base |}.

(** A VM whose first fault was on the last page of the address space. *)
Definition state_high : SnapshotState :=
  {| guestMemFileName := "/snap/vm1.mem";
     guestMemSize := 8192;
     guestMem := mkSlice host 8192;
     UserFaultFD := Some 7;
     startAddressOnce := true;
     startAddress := 2 ^ 64 - 4096 |}.

Definition latched_high : MemoryManager :=
  {| inactive := ∅;
     activeFdState := {[ 7 := state_high ]};
     activeVmFd := {[ "vm1"%string := 7 ]};
     epfd := 3 |}.

(** [epoll_ctl] fails with EPERM. *)
Definition add_epoll_fails : AddAnswers := mkAddAnswers (Mapped host) (Some 7) (Some 1).

(** No descriptor arrives from the hypervisor; [epoll_ctl] then gets
    descriptor -1 and fails with EBADF. *)
Definition add_no_uffd : AddAnswers := mkAddAnswers (Mapped host) None (Some 9).


(** Descriptor 7 is readable. *)
Definition ready7 : EpollEvent := mkEpollEvent 1 7 0.

(** The state of vm1 in [added], before any fault. *)
Definition state_vm1_added : SnapshotState :=
  {| guestMemFileName := "/snap/vm1.mem";
     guestMemSize := 8192;
     guestMem := mkSlice host 8192;
     UserFaultFD := Some 7;
     startAddressOnce := false;
     startAddress := 0 |}.

(** The slot of the array that [epoll_wait] has not filled. *)
Definition unfilled : EpollEvent := mkEpollEvent 0 0 0.

(** The descriptor received for vm1 has number 0, and three faults are
    waiting on it. *)
Definition add_fd0 : AddAnswers := mkAddAnswers (Mapped host) (Some 0) None.

Definition added_fd0 : MemoryManager :=
  fst (fst (AddInstance registered "vm1" add_fd0)).

Definition ready0 : EpollEvent := mkEpollEvent 1 0 0.

Definition world_fd0 : World :=
  mkWorld added_fd0
    {[ 0 := [pagefault base; pagefault (base + 4096); pagefault base] ]}
    no_errno [] [].

(** Two VMs, both added without a descriptor from the hypervisor. *)
Definition cfg_vm2 : SnapshotStateCfg := mkCfg "vm2" "/snap/vm2.mem" 8192 None.

Definition registered_two : MemoryManager := fst (RegisterVM registered cfg_vm2).

Definition added_one_no_uffd : MemoryManager :=
  fst (fst (AddInstance registered_two "vm1" add_no_uffd)).

End Scenario.

(** ** Properties under test *)

(** The number a sequence of bytes denotes, least significant byte
    first. *)
Fixpoint little_endian (bs : list byte) : Z :=
  match bs with
  | [] => 0
  | b :: rest => uint8 b + 256 * little_endian rest
  end.

(** Either the page of the fault lies inside the snapshot, or no copy is
    issued for it. *)
Definition page_bound_enforced (pageShift : Z) (v : MemoryManager) (fd address : Z) : Prop :=
  forall state kernel,
    activeFdState v !! fd = Some state ->
    (0 <= fault_offset state address /\
     fault_offset state address + pageSize pageShift <= guestMemSize state) \/
    (forall act, servePageFault pageShift v fd address kernel <> Done act).


(** When no descriptor is obtained, [AddInstance] unmaps the guest
    memory, returns an error and leaves the VM in [inactive]. *)
Definition uffd_failure_rolled_back (v : MemoryManager) (vmID : string)
    (k : AddAnswers) : Prop :=
  aa_uffd k = None ->
  forall v' tr err,
    AddInstance v vmID k = (v', tr, err) ->
    is_Some err /\
    (exists p, In (SysMunmap p) tr) /\
    is_Some (inactive v' !! vmID).

(** ** Facts about machine integers *)

Module WordFacts.

Lemma uint64_range z : 0 <= uint64 z < 2 ^ 64.
Proof. unfold uint64. apply Z.mod_pos_bound. lia. Qed.

Lemma uint64_small z : 0 <= z < 2 ^ 64 -> uint64 z = z.
Proof. intros H. unfold uint64. apply Z.mod_small. exact H. Qed.

Lemma int64_small z : - 2 ^ 63 <= z < 2 ^ 63 -> int64 z = z.
Proof. intros H. unfold int64. rewrite Z.mod_small; lia. Qed.

(** [int64] only reinterprets: the low 64 bits are kept. *)
Lemma int64_testbit z i : 0 <= i < 64 -> Z.testbit (int64 z) i = Z.testbit z i.
Proof.
  intros Hi. unfold int64.
  rewrite <- (Z.mod_pow2_bits_low ((z + 2 ^ 63) mod 2 ^ 64 - 2 ^ 63) 64 i) by lia.
  rewrite <- (Z.mod_pow2_bits_low z 64 i) by lia.
  f_equal.
  rewrite Zminus_mod_idemp_l.
  f_equal. lia.
Qed.

Lemma uint64_testbit z i :
  0 <= i -> Z.testbit (uint64 z) i = (i <? 64) && Z.testbit z i.
Proof.
  intros Hi. unfold uint64.
  destruct (Z.ltb_spec i 64).
  - now rewrite Z.mod_pow2_bits_low by lia.
  - now rewrite Z.mod_pow2_bits_high by lia.
Qed.

Lemma testbit_high z i : 0 <= z < 2 ^ 64 -> 64 <= i -> Z.testbit z i = false.
Proof.
  intros Hz Hi.
  rewrite <- (Z.mod_small z (2 ^ 64)) by lia.
  apply Z.mod_pow2_bits_high. lia.
Qed.

Lemma uint8_range b : 0 <= uint8 b < 256.
Proof. unfold uint8. pose proof (Byte.to_N_bounded b). lia. Qed.

End WordFacts.

Import WordFacts.

(** ** Page serving *)

Section PageServing.

Variable pageShift : Z.
Hypothesis pageShift_range : 0 <= pageShift < 63.

Lemma pageSize_range : 0 < pageSize pageShift < 2 ^ 63.
Proof.
  unfold pageSize. split.
  - apply Z.pow_pos_nonneg; lia.
  - apply Z.pow_lt_mono_r; lia.
Qed.

Lemma pageSize_minus_1 : int64 (int64 (pageSize pageShift) - 1) = Z.ones pageShift.
Proof.
  pose proof pageSize_range as H.
  rewrite (int64_small (pageSize pageShift)) by lia.
  rewrite int64_small by lia.
  rewrite Z.ones_equiv. unfold pageSize. lia.
Qed.

(** The page-aligned destination, bit by bit. *)
Lemma fault_dst_testbit address i :
  0 <= address < 2 ^ 64 -> 0 <= i ->
  Z.testbit (fault_dst pageShift address) i = negb (i <? pageShift) && Z.testbit address i.
Proof.
  intros Ha Hi. unfold fault_dst.
  rewrite pageSize_minus_1, uint64_testbit by lia.
  destruct (Z.ltb_spec i 64) as [Hlt | Hge]; simpl.
  - rewrite Z.land_spec, Z.lnot_spec, int64_testbit by lia.
    rewrite Z.testbit_ones_nonneg by lia.
    apply Bool.andb_comm.
  - rewrite (testbit_high address i) by lia.
    now rewrite Bool.andb_false_r.
Qed.

Lemma fault_dst_aligned address :
  0 <= address < 2 ^ 64 -> fault_dst pageShift address = address - address mod (pageSize pageShift).
Proof.
  intros Ha.
  assert (Hd : address - address mod (pageSize pageShift) = Z.shiftl (Z.shiftr address pageShift) pageShift).
  { rewrite Z.shiftl_mul_pow2, Z.shiftr_div_pow2 by lia.
    unfold pageSize.
    pose proof (Z.div_mod address (2 ^ pageShift)) as Hdm.
    assert (2 ^ pageShift <> 0) by (pose proof pageSize_range; unfold pageSize in *; lia).
    specialize (Hdm ltac:(assumption)). lia. }
  rewrite Hd, <- Z.ldiff_ones_r by lia.
  apply Z.bits_inj'. intros i Hi.
  rewrite fault_dst_testbit, Z.ldiff_spec, Z.testbit_ones_nonneg by lia.
  destruct (Z.ltb_spec i pageShift), (Z.leb_spec 0 i), (Z.testbit address i);
    simpl; try lia; reflexivity.
Qed.

Lemma servePageFault_Done v fd address kernel act :
  servePageFault pageShift v fd address kernel = Done act ->
  exists state,
    activeFdState v !! fd = Some state /\
    0 <= fault_offset state address < sl_len (guestMem state) /\
    act = SysUffdioCopy fd
            {| uc_dst := fault_dst pageShift address;
               uc_src := sl_ptr (guestMem state) + fault_offset state address;
               uc_len := uint64 (pageSize pageShift * 1);
               uc_mode := uint64 0;
               uc_copy := 0 |}.
Proof.
  unfold servePageFault, getSnapshotState.
  destruct (activeFdState v !! fd) as [state|]; simpl; [|discriminate].
  unfold index_addr.
  destruct ((0 <=? fault_offset state address)
            && (fault_offset state address <? sl_len (guestMem state))) eqn:Hb;
    simpl; [|discriminate].
  intros [= <-]. exists state.
  apply andb_prop in Hb as [H1 H2].
  apply Z.leb_le in H1. apply Z.ltb_lt in H2.
  repeat split; try lia.
Qed.

Lemma servePageFault_out_of_range v fd address kernel state :
  activeFdState v !! fd = Some state ->
  sl_len (guestMem state) <= fault_offset state address ->
  servePageFault pageShift v fd address kernel = Panic "index out of range".
Proof.
  intros Hs Hlen.
  unfold servePageFault, getSnapshotState. rewrite Hs. simpl.
  unfold index_addr.
  destruct (Z.ltb_spec (fault_offset state address) (sl_len (guestMem state))); [lia|].
  now rewrite Bool.andb_false_r.
Qed.

Lemma servePageFault_in_range v fd address kernel state :
  activeFdState v !! fd = Some state ->
  fault_offset state address < sl_len (guestMem state) ->
  exists act, servePageFault pageShift v fd address kernel = Done act.
Proof.
  intros Hs Hlen.
  unfold servePageFault, getSnapshotState. rewrite Hs. simpl.
  unfold index_addr.
  pose proof (uint64_range (address - startAddress state)) as Hr.
  fold (fault_offset state address) in Hr.
  destruct (Z.leb_spec 0 (fault_offset state address)); [|lia].
  destruct (Z.ltb_spec (fault_offset state address) (sl_len (guestMem state))); [|lia].
  simpl. eauto.
Qed.

(** C1.  Every fault that [servePageFault] serves issues one copy
    request on the VM's descriptor: its source is the host address of
    byte [address - startAddress] (the [uint64] difference, an index
    inside the mapping) of the snapshot mapping, its destination is the fault address with the low
    [pageShift] bits cleared, its length is one page and its mode is
    0. *)
Theorem servePageFault_copy_request v fd address kernel act :
  0 <= address < 2 ^ 64 ->
  servePageFault pageShift v fd address kernel = Done act ->
  exists state,
    activeFdState v !! fd = Some state /\
    act = SysUffdioCopy fd
            {| uc_dst := address - address mod (pageSize pageShift);
               uc_src := sl_ptr (guestMem state) + fault_offset state address;
               uc_len := pageSize pageShift;
               uc_mode := 0;
               uc_copy := 0 |} /\
    (forall i, 0 <= i ->
       Z.testbit (address - address mod (pageSize pageShift)) i
       = negb (i <? pageShift) && Z.testbit address i) /\
    0 <= fault_offset state address < sl_len (guestMem state) /\
    (0 <= startAddress state <= address ->
       fault_offset state address = address - startAddress state).
Proof.
  intros Ha Hs.
  apply servePageFault_Done in Hs as (state & Hst & Hoff & ->).
  exists state. split; [exact Hst|].
  pose proof pageSize_range as Hp.
  rewrite fault_dst_aligned by exact Ha.
  rewrite Z.mul_1_r, (uint64_small (pageSize pageShift)) by lia.
  split; [reflexivity|]. split; [|split; [exact Hoff|]].
  - intros i Hi. rewrite <- fault_dst_aligned by exact Ha.
    now apply fault_dst_testbit.
  - intros Hb. unfold fault_offset. apply uint64_small. lia.
Qed.

(** C2, as the code has it.  A served fault has its offset inside the
    mapping, [0 <= offset < guestMemSize]; the whole page lies inside
    when offset and size are multiples of the page size.  A fault whose
    offset is not below the size panics on the index and issues no
    copy; so does the fault at [base + guestMemSize], while the one at
    [base + guestMemSize - pageSize] is served. *)
Theorem served_fault_inside_mapping v fd address kernel state :
  activeFdState v !! fd = Some state ->
  sl_len (guestMem state) = guestMemSize state ->
  0 <= startAddress state < 2 ^ 64 ->
  (forall act,
     servePageFault pageShift v fd address kernel = Done act ->
     0 <= fault_offset state address < guestMemSize state /\
     ((pageSize pageShift | fault_offset state address) ->
      (pageSize pageShift | guestMemSize state) ->
      fault_offset state address + pageSize pageShift <= guestMemSize state)) /\
  (guestMemSize state <= fault_offset state address ->
     servePageFault pageShift v fd address kernel = Panic "index out of range") /\
  (0 <= guestMemSize state < 2 ^ 64 ->
     address = uint64 (startAddress state + guestMemSize state) ->
     servePageFault pageShift v fd address kernel = Panic "index out of range") /\
  (pageSize pageShift <= guestMemSize state < 2 ^ 64 ->
     address = uint64 (startAddress state + guestMemSize state - pageSize pageShift) ->
     exists act, servePageFault pageShift v fd address kernel = Done act).
Proof.
  intros Hst Hlen Hbase.
  pose proof pageSize_range as Hp.
  assert (Hwrap : forall d, 0 <= d < 2 ^ 64 ->
            fault_offset state (uint64 (startAddress state + d)) = d).
  { intros d Hd. unfold fault_offset, uint64.
    rewrite Zminus_mod_idemp_l.
    replace (startAddress state + d - startAddress state) with d by lia.
    apply Z.mod_small. exact Hd. }
  repeat split.
  - apply servePageFault_Done in H as (state' & Hst' & Hoff & _).
    rewrite Hst in Hst'. injection Hst' as <-. lia.
  - apply servePageFault_Done in H as (state' & Hst' & Hoff & _).
    rewrite Hst in Hst'. injection Hst' as <-. lia.
  - intros [a Ha] [b Hb].
    apply servePageFault_Done in H as (state' & Hst' & Hoff & _).
    rewrite Hst in Hst'. injection Hst' as <-.
    rewrite Hlen in Hoff. rewrite Ha, Hb in *.
    assert (a < b) by nia. nia.
  - intros Hge. eapply servePageFault_out_of_range; [exact Hst|]. lia.
  - intros Hsz ->. eapply servePageFault_out_of_range; [exact Hst|].
    rewrite Hwrap by exact Hsz. lia.
  - intros Hsz ->. eapply servePageFault_in_range; [exact Hst|].
    replace (startAddress state + guestMemSize state - pageSize pageShift)
      with (startAddress state + (guestMemSize state - pageSize pageShift)) by lia.
    rewrite Hwrap by lia. lia.
Qed.

(** C10.  For a fault below the latched base the offset is the
    difference modulo [2^64]: positive, at least [2^64 - base].  Nothing
    tests its sign; whether the fault is served depends on the index
    check against the length of the mapping alone. *)
Theorem fault_offset_wraps_below_base v fd address kernel state :
  activeFdState v !! fd = Some state ->
  0 <= address < startAddress state ->
  startAddress state < 2 ^ 64 ->
  fault_offset state address = address - startAddress state + 2 ^ 64 /\
  fault_offset state address = (address - startAddress state) mod 2 ^ 64 /\
  0 < 2 ^ 64 - startAddress state <= fault_offset state address /\
  (fault_offset state address < sl_len (guestMem state) ->
     exists act, servePageFault pageShift v fd address kernel = Done act) /\
  (sl_len (guestMem state) <= fault_offset state address ->
     servePageFault pageShift v fd address kernel = Panic "index out of range").
Proof.
  intros Hst Ha Hb.
  assert (Hoff : fault_offset state address = address - startAddress state + 2 ^ 64).
  { unfold fault_offset, uint64. symmetry.
    apply Z.mod_unique with (q := -1); lia. }
  split; [exact Hoff|]. split; [reflexivity|]. split; [lia|]. split.
  - intros Hlt. eapply servePageFault_in_range; eassumption.
  - intros Hge. eapply servePageFault_out_of_range; eassumption.
Qed.

End PageServing.

(** ** The registry *)

Section Registry.

Variable assignInactive :
  string -> SnapshotState -> gmap string SnapshotState -> gmap string SnapshotState.


Lemma RegisterVM_pool v cfg :
  at_most_one_pool v -> at_most_one_pool (fst (RegisterVM v cfg)).
Proof.
  intros Hv. unfold RegisterVM.
  destruct (inactive v !! cfg_vmID cfg) eqn:Hi; [exact Hv|].
  destruct (activeVmFd v !! cfg_vmID cfg) eqn:Ha; [exact Hv|].
  intros vmID [Hin Hact]. simpl in *.
  destruct (decide (cfg_vmID cfg = vmID)) as [<- | Hne].
  - rewrite Ha in Hact. now destruct Hact.
  - rewrite lookup_insert_ne in Hin by exact Hne. apply (Hv vmID). now split.
Qed.

(** From a state where no VM is in both pools, [RemoveInstance] only
    ever returns an error, and it returns the manager as it was. *)
Lemma RemoveInstance_never_succeeds v vmID k :
  at_most_one_pool v ->
  exists tr e, RemoveInstance assignInactive v vmID k = (v, tr, Some e).
Proof.
  intros Hv. unfold RemoveInstance.
  destruct (inactive v !! vmID) eqn:Hi; [|eauto].
  destruct (activeVmFd v !! vmID) eqn:Ha; [|eauto].
  exfalso. apply (Hv vmID). rewrite Hi, Ha. split; eauto.
Qed.


(** What [AddInstance] does once both tests have passed. *)
Lemma AddInstance_cases v vmID k v' tr err :
  AddInstance v vmID k = (v', tr, err) ->
  (v' = v /\ tr = [] /\ is_Some err) \/
  (exists state state1,
     inactive v !! vmID = Some state /\ activeVmFd v !! vmID = None /\
     is_Some err /\
     mapGuestMemory state (aa_map k) = (state1, tr, err) /\
     v' = {| inactive := <[vmID := state1]> (inactive v);
             activeFdState := activeFdState v;
             activeVmFd := activeVmFd v;
             epfd := epfd v |}) \/
  (exists state p,
     inactive v !! vmID = Some state /\ activeVmFd v !! vmID = None /\
     aa_map k = Mapped p /\
     let state2 := getUFFD (set_guestMem state (mkSlice p (guestMemSize state))) (aa_uffd k) in
     let fdInt := File_Fd (UserFaultFD state2) in
     v' = {| inactive := delete vmID (inactive v);
             activeFdState := <[fdInt := state2]> (activeFdState v);
             activeVmFd := <[vmID := fdInt]> (activeVmFd v);
             epfd := epfd v |} /\
     tr = [SysOpen (guestMemFileName state); SysMmap (guestMemSize state);
           GetUFFD; SysEpollCtlAdd (epfd v) fdInt] /\
     err = option_map Errno (aa_epoll_ctl k)).
Proof.
  unfold AddInstance.
  destruct (inactive v !! vmID) as [state|] eqn:Hi;
    [|intros [= <- <- <-]; left; eauto].
  destruct (activeVmFd v !! vmID) eqn:Ha;
    [intros [= <- <- <-]; left; eauto|].
  destruct (aa_map k) as [e | e | p] eqn:Hm; simpl.
  - intros [= <- <- <-]. right. left. exists state, state.
    repeat split; eauto.
  - intros [= <- <- <-]. right. left. exists state, (set_guestMem state nil_slice).
    repeat split; eauto.
  - intros H. right. right. exists state, p.
    destruct (aa_epoll_ctl k); injection H as <- <- <-; repeat split; reflexivity.
Qed.

Lemma AddInstance_pool v vmID k :
  at_most_one_pool v -> at_most_one_pool (fst (fst (AddInstance v vmID k))).
Proof.
  intros Hv.
  destruct (AddInstance v vmID k) as [[v' tr] err] eqn:HA. simpl.
  apply AddInstance_cases in HA
    as [(-> & _) | [(state & state1 & Hi & Ha & _ & _ & ->)
                   | (state & p & Hi & Ha & _ & -> & _)]].
  - exact Hv.
  - intros x [Hin Hact]. simpl in *.
    apply (Hv x). split; [|exact Hact].
    destruct (decide (vmID = x)) as [<- | Hne]; [rewrite Hi; eauto|].
    now rewrite lookup_insert_ne in Hin.
  - intros x [Hin Hact]. simpl in *.
    destruct (decide (vmID = x)) as [<- | Hne].
    + rewrite lookup_delete_eq in Hin. now destruct Hin.
    + rewrite lookup_delete_ne in Hin by exact Hne.
      rewrite lookup_insert_ne in Hact by exact Hne.
      apply (Hv x). now split.
Qed.

Lemma AddInstance_agree v vmID k :
  active_indices_agree v -> active_indices_agree (fst (fst (AddInstance v vmID k))).
Proof.
  intros Hv.
  destruct (AddInstance v vmID k) as [[v' tr] err] eqn:HA. simpl.
  apply AddInstance_cases in HA
    as [(-> & _) | [(state & state1 & Hi & Ha & _ & _ & ->)
                   | (state & p & Hi & Ha & _ & -> & _)]].
  - exact Hv.
  - exact Hv.
  - intros fd. simpl.
    set (fdInt := File_Fd _).
    destruct (decide (fdInt = fd)) as [<- | Hne].
    + rewrite lookup_insert_eq. split; [|eauto].
      intros _. exists vmID. now rewrite lookup_insert_eq.
    + rewrite lookup_insert_ne by exact Hne. rewrite (Hv fd). split.
      * intros [x Hx]. exists x.
        rewrite lookup_insert_ne; [exact Hx|]. intros ->. congruence.
      * intros [x Hx]. exists x.
        destruct (decide (vmID = x)) as [<- | Hnx].
        -- rewrite lookup_insert_eq in Hx. congruence.
        -- now rewrite lookup_insert_ne in Hx.
Qed.


Lemma NewMemoryManager_pool e : at_most_one_pool (NewMemoryManager e).
Proof. intros vmID [[s Hs] _]. simpl in Hs. now rewrite lookup_empty in Hs. Qed.


Lemma AddInstance_mapped v vmID k state p :
  inactive v !! vmID = Some state ->
  activeVmFd v !! vmID = None ->
  aa_map k = Mapped p ->
  let state2 := getUFFD (set_guestMem state (mkSlice p (guestMemSize state))) (aa_uffd k) in
  let fdInt := File_Fd (UserFaultFD state2) in
  AddInstance v vmID k
  = ({| inactive := delete vmID (inactive v);
        activeFdState := <[fdInt := state2]> (activeFdState v);
        activeVmFd := <[vmID := fdInt]> (activeVmFd v);
        epfd := epfd v |},
     [SysOpen (guestMemFileName state); SysMmap (guestMemSize state);
      GetUFFD; SysEpollCtlAdd (epfd v) fdInt],
     option_map Errno (aa_epoll_ctl k)).
Proof.
  intros Hi Ha Hm. unfold AddInstance. rewrite Hi, Ha, Hm. simpl.
  now destruct (aa_epoll_ctl k).
Qed.

Lemma no_unmap_no_close (path : string) (len epfd0 fd : Z) :
  (forall q, ~ In (SysMunmap q) [SysOpen path; SysMmap len; GetUFFD; SysEpollCtlAdd epfd0 fd]) /\
  (forall c, ~ In (SysClose c) [SysOpen path; SysMmap len; GetUFFD; SysEpollCtlAdd epfd0 fd]).
Proof.
  split; intros x Hin; simpl in Hin;
    repeat (destruct Hin as [Hin | Hin]; [discriminate Hin|]); exact Hin.
Qed.

(** C5 on the code.  After Register and Add of vm1, the VM has its
    entry in [activeVmFd], yet [RemoveInstance] refuses it as not
    registered and changes nothing; a VM that was never registered
    gets the same answer, not the one for a missing descriptor. *)
Theorem RemoveInstance_rejects_active_vm (k : RemoveAnswers) :
  activeVmFd Scenario.added !! "vm1"%string = Some 7 /\
  RemoveInstance assignInactive Scenario.added "vm1" k
  = (Scenario.added, [],
     Some (errors_New "VM not registered with the memory manager")) /\
  activeVmFd Scenario.fresh !! "vm2"%string = None /\
  RemoveInstance assignInactive Scenario.fresh "vm2" k
  = (Scenario.fresh, [],
     Some (errors_New "VM not registered with the memory manager")).
Proof.
  assert (Hvm1 : inactive Scenario.added !! "vm1"%string = None)
    by (vm_compute; reflexivity).
  assert (Hvm2 : inactive Scenario.fresh !! "vm2"%string = None)
    by (vm_compute; reflexivity).
  unfold RemoveInstance. rewrite Hvm1, Hvm2.
  repeat split; vm_compute; reflexivity.
Qed.



(** Why the proviso: a second VM added without a descriptor is filed
    under -1 like the first, on an error return of [AddInstance]. *)
Lemma AddInstance_error_can_share_descriptor :
  indices_tied Scenario.added_one_no_uffd /\
  snd (AddInstance Scenario.added_one_no_uffd "vm2" Scenario.add_no_uffd)
  = Some (Errno 9) /\
  ~ one_vm_per_fd
      (fst (fst (AddInstance Scenario.added_one_no_uffd "vm2" Scenario.add_no_uffd))).
Proof.
  split; [|split].
  - split; [split|].
    + intros vmID [[s Hs] [fd Hfd]].
      destruct (decide (vmID = "vm1"%string)) as [-> | Hne].
      * vm_compute in Hs. discriminate Hs.
      * unfold Scenario.added_one_no_uffd in Hfd.
        erewrite AddInstance_mapped in Hfd;
          [|vm_compute; reflexivity | vm_compute; reflexivity | reflexivity].
        simpl in Hfd. rewrite lookup_insert_ne in Hfd by congruence.
        vm_compute in Hfd. discriminate Hfd.
    + intros fd. unfold Scenario.added_one_no_uffd.
      erewrite AddInstance_mapped;
        [|vm_compute; reflexivity | vm_compute; reflexivity | reflexivity].
      simpl. change (activeFdState Scenario.registered_two) with (∅ : gmap Z SnapshotState).
      change (activeVmFd Scenario.registered_two) with (∅ : gmap string Z).
      split.
      * intros [s Hs]. apply lookup_insert_Some in Hs as [[<- _] | [_ Hs]];
          [|now rewrite lookup_empty in Hs].
        exists "vm1"%string. apply lookup_insert_eq.
      * intros [x Hx]. apply lookup_insert_Some in Hx as [[_ <-] | [_ Hx]];
          [|now rewrite lookup_empty in Hx].
        rewrite lookup_insert_eq. eauto.
    + intros x1 x2 fd. unfold Scenario.added_one_no_uffd.
      erewrite AddInstance_mapped;
        [|vm_compute; reflexivity | vm_compute; reflexivity | reflexivity].
      simpl. change (activeVmFd Scenario.registered_two) with (∅ : gmap string Z).
      intros H1 H2.
      apply lookup_insert_Some in H1 as [[<- _] | [_ H1]];
        [|now rewrite lookup_empty in H1].
      apply lookup_insert_Some in H2 as [[<- _] | [_ H2]];
        [|now rewrite lookup_empty in H2].
      reflexivity.
  - vm_compute. reflexivity.
  - intros Hone.
    assert (H : "vm1"%string = "vm2"%string).
    { apply (Hone "vm1"%string "vm2"%string (-1)); vm_compute; reflexivity. }
    discriminate H.
Qed.

(** C7, as the code has it.  [AddInstance] does not look at what
    [getUFFD] achieved.  Once the guest memory is mapped it issues no
    unmap, takes the VM out of [inactive] and records it in both active
    indices under the number its descriptor field reports, -1 for a
    field that holds no file; the error it returns is the one of
    [epoll_ctl], if any. *)
Theorem AddInstance_does_not_test_getUFFD v vmID k state p :
  inactive v !! vmID = Some state ->
  activeVmFd v !! vmID = None ->
  aa_map k = Mapped p ->
  exists v' tr state2,
    AddInstance v vmID k = (v', tr, option_map Errno (aa_epoll_ctl k)) /\
    inactive v' !! vmID = None /\
    activeVmFd v' !! vmID = Some (File_Fd (UserFaultFD state2)) /\
    activeFdState v' !! File_Fd (UserFaultFD state2) = Some state2 /\
    (forall q, ~ In (SysMunmap q) tr) /\
    (aa_uffd k = None -> UserFaultFD state2 = UserFaultFD state) /\
    (UserFaultFD state2 = None -> File_Fd (UserFaultFD state2) = -1).
Proof.
  intros Hi Ha Hm.
  pose proof (AddInstance_mapped v vmID k state p Hi Ha Hm) as HA. simpl in HA.
  eexists _, _, _. split; [exact HA|]. simpl.
  rewrite lookup_delete_eq, !lookup_insert_eq.
  split; [reflexivity|]. split; [reflexivity|]. split; [reflexivity|].
  split; [apply no_unmap_no_close|]. split.
  - now intros ->.
  - now intros ->.
Qed.

End Registry.

(** ** The fault reader *)

Lemma lor_shift_add x y n :
  0 <= n -> 0 <= x < 2 ^ n -> 0 <= y -> Z.lor x (y * 2 ^ n) = x + y * 2 ^ n.
Proof.
  intros Hn Hx Hy. symmetry. apply Z.add_nocarry_lor.
  apply Z.bits_inj'. intros i Hi.
  rewrite Z.land_spec, Z.bits_0, <- Z.shiftl_mul_pow2 by lia.
  destruct (Z.lt_ge_cases i n).
  - rewrite Z.shiftl_spec_low by lia. apply Bool.andb_false_r.
  - rewrite <- (Z.mod_small x (2 ^ n)) by lia.
    rewrite Z.mod_pow2_bits_high by lia. reflexivity.
Qed.

Lemma LittleEndian_Uint64_value l :
  (8 <= length l)%nat -> LittleEndian_Uint64 l = Done (little_endian (take 8 l)).
Proof.
  intros Hl.
  do 8 (destruct l as [| ? l]; [simpl in Hl; lia|]).
  cbn [LittleEndian_Uint64 take little_endian]. f_equal.
  pose proof (uint8_range b). pose proof (uint8_range b0). pose proof (uint8_range b1).
  pose proof (uint8_range b2). pose proof (uint8_range b3). pose proof (uint8_range b4).
  pose proof (uint8_range b5). pose proof (uint8_range b6).
  rewrite !Z.shiftl_mul_pow2 by lia.
  rewrite (lor_shift_add (uint8 b5 * 2 ^ 48) (uint8 b6) 56) by lia.
  replace (uint8 b5 * 2 ^ 48 + uint8 b6 * 2 ^ 56)
    with ((uint8 b5 + uint8 b6 * 2 ^ 8) * 2 ^ 48) by lia.
  rewrite (lor_shift_add (uint8 b4 * 2 ^ 40) _ 48) by lia.
  replace (uint8 b4 * 2 ^ 40 + (uint8 b5 + uint8 b6 * 2 ^ 8) * 2 ^ 48)
    with ((uint8 b4 + uint8 b5 * 2 ^ 8 + uint8 b6 * 2 ^ 16) * 2 ^ 40) by lia.
  rewrite (lor_shift_add (uint8 b3 * 2 ^ 32) _ 40) by lia.
  match goal with |- context [Z.lor (uint8 b2 * 2 ^ 24) ?r] =>
    replace r with ((uint8 b3 + uint8 b4 * 2 ^ 8 + uint8 b5 * 2 ^ 16 + uint8 b6 * 2 ^ 24) * 2 ^ 32) by lia end.
  rewrite (lor_shift_add (uint8 b2 * 2 ^ 24) _ 32) by lia.
  match goal with |- context [Z.lor (uint8 b1 * 2 ^ 16) ?r] =>
    replace r with ((uint8 b2 + uint8 b3 * 2 ^ 8 + uint8 b4 * 2 ^ 16 + uint8 b5 * 2 ^ 24 + uint8 b6 * 2 ^ 32) * 2 ^ 24) by lia end.
  rewrite (lor_shift_add (uint8 b1 * 2 ^ 16) _ 24) by lia.
  match goal with |- context [Z.lor (uint8 b0 * 2 ^ 8) ?r] =>
    replace r with ((uint8 b1 + uint8 b2 * 2 ^ 8 + uint8 b3 * 2 ^ 16 + uint8 b4 * 2 ^ 24 + uint8 b5 * 2 ^ 32 + uint8 b6 * 2 ^ 40) * 2 ^ 16) by lia end.
  rewrite (lor_shift_add (uint8 b0 * 2 ^ 8) _ 16) by lia.
  match goal with |- context [Z.lor (uint8 b) ?r] =>
    replace r with ((uint8 b0 + uint8 b1 * 2 ^ 8 + uint8 b2 * 2 ^ 16 + uint8 b3 * 2 ^ 24 + uint8 b4 * 2 ^ 32 + uint8 b5 * 2 ^ 40 + uint8 b6 * 2 ^ 48) * 2 ^ 8) by lia end.
  rewrite (lor_shift_add (uint8 b) _ 8) by lia.
  rewrite take_0. cbn [little_endian]. lia.
Qed.

Section FaultReader.
Variable sizeof_struct_uffd_msg : nat.
Variable UFFD_EVENT_PAGEFAULT : byte.
Hypothesis msg_holds_address : (24 <= sizeof_struct_uffd_msg)%nat.

Lemma uint8_inj b c : uint8 b = uint8 c -> b = c.
Proof.
  unfold uint8. intros H. apply N2Z.inj in H.
  pose proof (Byte.of_to_N b) as Hb. rewrite H, Byte.of_to_N in Hb. congruence.
Qed.

Lemma extract_ReadErr e :
  extractPageFaultAddress sizeof_struct_uffd_msg UFFD_EVENT_PAGEFAULT (ReadErr e) = Fatal "Read uffd_msg failed".
Proof. reflexivity. Qed.

Lemma extract_short data :
  (length data < sizeof_struct_uffd_msg)%nat ->
  extractPageFaultAddress sizeof_struct_uffd_msg UFFD_EVENT_PAGEFAULT (ReadOk data) = Fatal "Read uffd_msg failed".
Proof.
  intros Hlen. unfold extractPageFaultAddress, syscall_Read.
  rewrite length_replicate, take_ge by lia.
  rewrite length_app, length_drop, length_replicate.
  destruct (Z.eqb_spec (Z.of_nat (length data))
              (Z.of_nat (length data + (sizeof_struct_uffd_msg - length data)))) as [Heq | Hne].
  - lia.
  - reflexivity.
Qed.

Lemma extract_full data b :
  (sizeof_struct_uffd_msg <= length data)%nat ->
  data !! 0%nat = Some b ->
  extractPageFaultAddress sizeof_struct_uffd_msg UFFD_EVENT_PAGEFAULT (ReadOk data)
  = if negb (uint8 b =? uint8 UFFD_EVENT_PAGEFAULT) then Fatal "Received wrong event type"
    else Done (little_endian (take 8 (drop 16 data))).
Proof.
  intros Hlen Hb. unfold extractPageFaultAddress, syscall_Read.
  rewrite length_replicate, length_take_le by lia.
  rewrite drop_ge by (rewrite length_replicate; lia).
  rewrite app_nil_r, length_take_le by lia.
  rewrite Z.eqb_refl. simpl.
  unfold byte_at. rewrite lookup_take_lt by lia. rewrite Hb. simpl.
  destruct (uint8 b =? uint8 UFFD_EVENT_PAGEFAULT); simpl; [|reflexivity].
  unfold slice_from. rewrite length_take_le by lia.
  destruct (Nat.leb_spec 16 sizeof_struct_uffd_msg); [|lia]. simpl.
  rewrite LittleEndian_Uint64_value by (rewrite length_drop, length_take_le; lia).
  do 2 f_equal.
  rewrite !take_drop_commute, take_take. do 2 f_equal. lia.
Qed.

Lemma little_endian_bound l :
  0 <= little_endian l < 2 ^ (8 * Z.of_nat (length l)).
Proof.
  induction l as [| b l IH].
  - simpl. lia.
  - cbn [little_endian length]. pose proof (uint8_range b).
    replace (8 * Z.of_nat (S (length l))) with (8 + 8 * Z.of_nat (length l)) by lia.
    rewrite Z.pow_add_r by lia. change (2 ^ 8) with 256. lia.
Qed.

Lemma little_endian_64 l : 0 <= little_endian (take 8 l) < 2 ^ 64.
Proof.
  pose proof (little_endian_bound (take 8 l)) as H.
  assert (2 ^ (8 * Z.of_nat (length (take 8 l))) <= 2 ^ 64).
  { apply Z.pow_le_mono_r; [lia|]. rewrite length_take. lia. }
  lia.
Qed.

(** C8.  Reading one fault ends the process exactly when the read
    returns an error, delivers fewer bytes than the message has, or
    byte 0 of the message is not the page-fault event; otherwise the
    result is the number that bytes 16 to 23 of the message denote,
    least significant byte first, a 64-bit value. *)
Theorem extractPageFaultAddress_fatal_iff (a : ReadAnswer) :
  let read_error := exists e, a = ReadErr e in
  let short_read :=
    exists data, a = ReadOk data /\ (length data < sizeof_struct_uffd_msg)%nat in
  let wrong_event :=
    exists data b, a = ReadOk data /\ data !! 0%nat = Some b /\
                   b <> UFFD_EVENT_PAGEFAULT in
  ((exists msg,
      extractPageFaultAddress sizeof_struct_uffd_msg UFFD_EVENT_PAGEFAULT a = Fatal msg)
   <-> read_error \/ short_read \/ wrong_event) /\
  (~ (read_error \/ short_read \/ wrong_event) ->
   exists data,
     a = ReadOk data /\
     extractPageFaultAddress sizeof_struct_uffd_msg UFFD_EVENT_PAGEFAULT a
     = Done (little_endian (take 8 (drop 16 data))) /\
     0 <= little_endian (take 8 (drop 16 data)) < 2 ^ 64).
Proof.
  intros read_error short_read wrong_event.
  subst read_error short_read wrong_event.
  destruct a as [e | data].
  - rewrite extract_ReadErr. split.
    + split; [intros _; left; eauto | intros _; eauto].
    + intros Hn. exfalso. apply Hn. left. eauto.
  - destruct (lt_dec (length data) sizeof_struct_uffd_msg) as [Hshort | Hfull].
    + rewrite extract_short by exact Hshort. split.
      * split; [intros _; right; left; eauto | intros _; eauto].
      * intros Hn. exfalso. apply Hn. right. left. eauto.
    + destruct data as [| b data]; [simpl in Hfull; lia|].
      rewrite (extract_full (b :: data) b) by (simpl in *; first [lia | reflexivity]).
      destruct (Z.eqb_spec (uint8 b) (uint8 UFFD_EVENT_PAGEFAULT)) as [Heq | Hne]; simpl.
      * apply uint8_inj in Heq.
        assert (Hno : ~ ((exists e, ReadOk (b :: data) = ReadErr e) \/
                         (exists d, ReadOk (b :: data) = ReadOk d /\
                                    (length d < sizeof_struct_uffd_msg)%nat) \/
                         (exists d c, ReadOk (b :: data) = ReadOk d /\
                                      d !! 0%nat = Some c /\ c <> UFFD_EVENT_PAGEFAULT))).
        { intros [[e He] | [(d & Hd & Hlen) | (d & c & Hd & Hc & Hcne)]].
          - discriminate He.
          - injection Hd as <-. lia.
          - injection Hd as <-. simpl in Hc. injection Hc as <-. contradiction. }
        split.
        -- split; [intros [msg Hmsg]; discriminate Hmsg | intros H; contradiction].
        -- intros _. exists (b :: data). split; [reflexivity|]. split; [reflexivity|].
           apply little_endian_64.
      * split.
        -- split; [|intros _; eauto].
           intros _. right. right. exists (b :: data), b.
           split; [reflexivity|]. split; [reflexivity|]. intros ->. contradiction.
        -- intros Hn. exfalso. apply Hn. right. right. exists (b :: data), b.
           split; [reflexivity|]. split; [reflexivity|]. intros ->. contradiction.
Qed.

End FaultReader.

(** ** The event loop *)

Section EventLoop.

Variable pageShift : Z.
Variable sizeof_struct_uffd_msg : nat.
Variable UFFD_EVENT_PAGEFAULT : byte.

Lemma latchStartAddress_latched st address :
  startAddressOnce st = true -> latchStartAddress st address = st.
Proof. intros H. unfold latchStartAddress. now rewrite H. Qed.

Lemma latchStartAddress_first st address :
  startAddressOnce st = false ->
  startAddressOnce (latchStartAddress st address) = true /\
  startAddress (latchStartAddress st address) = address.
Proof. intros H. unfold latchStartAddress. rewrite H. now split. Qed.

Lemma latchStartAddress_once st address :
  startAddressOnce (latchStartAddress st address) = true.
Proof. unfold latchStartAddress. now destruct (startAddressOnce st) eqn:H. Qed.

(** What one turn of the loop does, case by case. *)
Lemma serveEvent_eq event w :
  serveEvent sizeof_struct_uffd_msg UFFD_EVENT_PAGEFAULT event w
  = match activeFdState (w_mgr w) !! Fd event with
    | None => (w, Fatal "received event from file which is not active")
    | Some st =>
        match w_pending w !! Fd event with
        | Some (a :: rest) =>
            let w1 := {| w_mgr := w_mgr w;
                         w_pending := <[Fd event := rest]> (w_pending w);
                         w_copy_errno := w_copy_errno w;
                         w_trace := w_trace w ++ [SysRead (Fd event)];
                         w_tasks := w_tasks w |} in
            match extractPageFaultAddress sizeof_struct_uffd_msg UFFD_EVENT_PAGEFAULT a with
            | Done address =>
                ({| w_mgr :=
                      {| inactive := inactive (w_mgr w);
                         activeFdState :=
                           <[Fd event := latchStartAddress st address]>
                             (activeFdState (w_mgr w));
                         activeVmFd := activeVmFd (w_mgr w);
                         epfd := epfd (w_mgr w) |};
                    w_pending := <[Fd event := rest]> (w_pending w);
                    w_copy_errno := w_copy_errno w;
                    w_trace := w_trace w ++ [SysRead (Fd event)];
                    w_tasks := w_tasks w ++ [(Fd event, address)] |}, Done tt)
            | Fatal msg => (w1, Fatal msg)
            | Panic msg => (w1, Panic msg)
            | Blocked => (w1, Blocked)
            end
        | _ => (w, Blocked)
        end
    end.
Proof.
  unfold serveEvent, mbind, Loop_bind, check_active.
  destruct (activeFdState (w_mgr w) !! Fd event) as [st|] eqn:Hev; [|reflexivity].
  unfold read_fault, world_read.
  destruct (w_pending w !! Fd event) as [[|a rest]|]; try reflexivity.
  destruct (extractPageFaultAddress sizeof_struct_uffd_msg UFFD_EVENT_PAGEFAULT a);
    try reflexivity.
  unfold lookup_state, getSnapshotState. simpl. rewrite Hev. reflexivity.
Qed.

(** A goroutine changes neither the manager nor the queues. *)
Lemma run_task_frame i w w' o :
  run_task pageShift i w = (w', o) ->
  w_mgr w' = w_mgr w /\ w_pending w' = w_pending w /\ w_copy_errno w' = w_copy_errno w.
Proof.
  unfold run_task.
  destruct (w_tasks w !! i) as [[fd address]|]; [|now intros [= <- _]].
  destruct (servePageFault _ _ _ _ _); intros [= <- _]; now repeat split.
Qed.

Lemma run_steps_state steps : forall w w' o fd st,
  run_steps pageShift sizeof_struct_uffd_msg UFFD_EVENT_PAGEFAULT steps w = (w', o) ->
  activeFdState (w_mgr w) !! fd = Some st ->
  (activeFdState (w_mgr w') !! fd = Some st /\
   (startAddressOnce st = true \/
    w_pending w' !! fd = w_pending w !! fd \/
    exists a rest,
      w_pending w !! fd = Some (a :: rest) /\
      w_pending w' !! fd = Some rest /\
      (forall address,
         extractPageFaultAddress sizeof_struct_uffd_msg UFFD_EVENT_PAGEFAULT a
         <> Done address) /\
      o <> Done tt)) \/
  (exists a rest address,
     w_pending w !! fd = Some (a :: rest) /\
     extractPageFaultAddress sizeof_struct_uffd_msg UFFD_EVENT_PAGEFAULT a = Done address /\
     activeFdState (w_mgr w') !! fd = Some (latchStartAddress st address)).
Proof.
  induction steps as [| s steps IH]; intros w w' o fd st Hs Hst.
  - injection Hs as <- <-. left. split; [exact Hst|]. right. now left.
  - cbn [run_steps] in Hs. unfold mbind, Loop_bind in Hs.
    destruct s as [event | i]; cbn [run_step] in Hs.
    + rewrite serveEvent_eq in Hs.
      destruct (activeFdState (w_mgr w) !! Fd event) as [st0|] eqn:Hev.
      2: { injection Hs as <- <-. left. split; [exact Hst|]. right. now left. }
      destruct (w_pending w !! Fd event) as [[|a rest]|] eqn:Hp.
      2: { destruct (extractPageFaultAddress sizeof_struct_uffd_msg UFFD_EVENT_PAGEFAULT a)
             as [address | msg | msg |] eqn:Hx.
           - (* the fault is decoded *)
             cbv beta iota zeta in Hs.
             match type of Hs with
             | run_steps _ _ _ _ ?w1 = _ => set (w1' := w1) in Hs
             end.
             destruct (decide (Fd event = fd)) as [Heq | Hne].
             + subst fd. rewrite Hev in Hst. injection Hst as ->.
               right. exists a, rest, address. split; [exact Hp|]. split; [exact Hx|].
               assert (Hst1 : activeFdState (w_mgr w1') !! Fd event
                              = Some (latchStartAddress st address))
                 by (subst w1'; simpl; apply lookup_insert_eq).
               destruct (IH w1' w' o (Fd event) _ Hs Hst1)
                 as [[Hsame _] | (a' & rest' & address' & _ & _ & Hl)].
               * exact Hsame.
               * rewrite Hl. f_equal. apply latchStartAddress_latched.
                 apply latchStartAddress_once.
             + assert (Hst1 : activeFdState (w_mgr w1') !! fd = Some st)
                 by (subst w1'; simpl; now rewrite lookup_insert_ne).
               assert (Hp1 : w_pending w1' !! fd = w_pending w !! fd)
                 by (subst w1'; simpl; now rewrite lookup_insert_ne).
               destruct (IH w1' w' o fd st Hs Hst1)
                 as [[Hsame Hcase] | (a' & rest' & address' & Hp' & Hx' & Hl)].
               * left. split; [exact Hsame|]. rewrite <- Hp1. exact Hcase.
               * right. exists a', rest', address'. rewrite <- Hp1. auto.
           - injection Hs as <- <-. simpl. left. split; [exact Hst|]. right.
             destruct (decide (Fd event = fd)) as [<- | Hne].
             + right. exists a, rest. rewrite lookup_insert_eq.
               split; [exact Hp|]. split; [reflexivity|].
               split; [intros address; rewrite Hx|]; discriminate.
             + left. now rewrite lookup_insert_ne.
           - injection Hs as <- <-. simpl. left. split; [exact Hst|]. right.
             destruct (decide (Fd event = fd)) as [<- | Hne].
             + right. exists a, rest. rewrite lookup_insert_eq.
               split; [exact Hp|]. split; [reflexivity|].
               split; [intros address; rewrite Hx|]; discriminate.
             + left. now rewrite lookup_insert_ne.
           - injection Hs as <- <-. simpl. left. split; [exact Hst|]. right.
             destruct (decide (Fd event = fd)) as [<- | Hne].
             + right. exists a, rest. rewrite lookup_insert_eq.
               split; [exact Hp|]. split; [reflexivity|].
               split; [intros address; rewrite Hx|]; discriminate.
             + left. now rewrite lookup_insert_ne. }
      all: injection Hs as <- <-; left; (split; [exact Hst|]); right; now left.
    + destruct (run_task pageShift i w) as [w1 o1] eqn:H1.
      apply run_task_frame in H1 as (Hm & Hq & _).
      destruct o1 as [[] | msg | msg |].
      * rewrite <- Hm in Hst. rewrite <- Hq.
        exact (IH w1 w' o fd st Hs Hst).
      * injection Hs as <- <-. rewrite Hm, Hq. left. split; [exact Hst|]. right. now left.
      * injection Hs as <- <-. rewrite Hm, Hq. left. split; [exact Hst|]. right. now left.
      * injection Hs as <- <-. rewrite Hm, Hq. left. split; [exact Hst|]. right. now left.
Qed.

(** C4.  Through any run of the loop and of its goroutines the base of
    a VM is latched at the address of the first fault read from its
    descriptor, and never changes afterwards.  A latched state keeps its
    base.  An unlatched state is latched, at the address decoded from
    the first message of its descriptor, as soon as that message has
    been read and decoded; it stays unlatched only as long as nothing
    has been read from the descriptor, or when that first message is
    not a well-formed page fault, which ends the process. *)
Theorem startAddress_latched_once steps w w' o fd st :
  run_steps pageShift sizeof_struct_uffd_msg UFFD_EVENT_PAGEFAULT steps w = (w', o) ->
  activeFdState (w_mgr w) !! fd = Some st ->
  exists st',
    activeFdState (w_mgr w') !! fd = Some st' /\
    (startAddressOnce st = true ->
       startAddressOnce st' = true /\ startAddress st' = startAddress st) /\
    (startAddressOnce st = false ->
       (st' = st /\
        (w_pending w' !! fd = w_pending w !! fd \/
         exists a rest,
           w_pending w !! fd = Some (a :: rest) /\
           w_pending w' !! fd = Some rest /\
           (forall address,
              extractPageFaultAddress sizeof_struct_uffd_msg UFFD_EVENT_PAGEFAULT a
              <> Done address) /\
           o <> Done tt)) \/
       exists a rest address,
         w_pending w !! fd = Some (a :: rest) /\
         extractPageFaultAddress sizeof_struct_uffd_msg UFFD_EVENT_PAGEFAULT a
         = Done address /\
         startAddressOnce st' = true /\ startAddress st' = address).
Proof.
  intros Hs Hst.
  destruct (run_steps_state steps w w' o fd st Hs Hst)
    as [[Hsame Hcase] | (a & rest & address & Hp & Hx & Hl)].
  - exists st. split; [exact Hsame|]. split; [auto|].
    intros Honce. left. split; [reflexivity|].
    destruct Hcase as [Hc | Hc]; [congruence | exact Hc].
  - exists (latchStartAddress st address). split; [exact Hl|]. split.
    + intros Honce. rewrite latchStartAddress_latched by exact Honce. auto.
    + intros Honce. right. exists a, rest, address.
      split; [exact Hp|]. split; [exact Hx|].
      now apply latchStartAddress_first.
Qed.

End EventLoop.

(** C9 on the code.  The loop ranges over the whole array, not over the
    events that [epoll_wait] reported.  With descriptor 0 active and one
    event ready, it reads three messages from descriptor 0, one for the
    ready event and two for slots that were not filled, and blocks in a
    fourth read.  With descriptor 7 ready and descriptor 0 not active, it
    reads the ready fault, looks up descriptor 0 for slot 1 and ends the
    process; the copy for the ready fault is issued only if its
    goroutine gets to run before that. *)
Theorem pollingLoop_wake_visits_unreported_slots :
  EpollWait events0 (mkWaitAnswer [Scenario.ready0] None)
  = (Scenario.ready0 :: replicate 999 Scenario.unfilled, 1, None) /\
  (let '(w', _, o) :=
     pollingLoop_wake 32 x12 events0 (mkWaitAnswer [Scenario.ready0] None)
       Scenario.world_fd0 in
   w_trace w' = [SysRead 0; SysRead 0; SysRead 0] /\
   w_tasks w'
   = [(0, Scenario.base); (0, Scenario.base + 4096); (0, Scenario.base)] /\
   w_pending w' !! 0 = Some [] /\
   o = Blocked) /\
  EpollWait events0 (mkWaitAnswer [Scenario.ready7] None)
  = (Scenario.ready7 :: replicate 999 Scenario.unfilled, 1, None) /\
  activeFdState Scenario.added !! 0 = None /\
  (let '(w', _, o) :=
     pollingLoop_wake 32 x12 events0 (mkWaitAnswer [Scenario.ready7] None)
       Scenario.world0 in
   w_trace w' = [SysRead 7] /\
   w_tasks w' = [(7, Scenario.base)] /\
   o = Fatal "received event from file which is not active") /\
  (let '(w', o) :=
     run_steps 12 32 x12
       [HandleEvent Scenario.ready7; RunTask 0; HandleEvent Scenario.unfilled]
       Scenario.world0 in
   w_trace w'
   = [SysRead 7;
      SysUffdioCopy 7 (mk_uffdio_copy Scenario.base Scenario.host 4096 0 0)] /\
   o = Fatal "received event from file which is not active").
Proof.
  split; [vm_compute; reflexivity|].
  split; [vm_compute; repeat split; reflexivity|].
  split; [vm_compute; reflexivity|].
  split; [vm_compute; reflexivity|].
  split; vm_compute; repeat split; reflexivity.
Qed.

(** ** Life cycle of a VM in the registry *)

Section Lifecycle.

Variable assignInactive :
  string -> SnapshotState -> gmap string SnapshotState -> gmap string SnapshotState.

(** X1.  A successful [RegisterVM] files the new state under the VM; a second
    [RegisterVM] for the same VM is refused and changes nothing. *)
Theorem RegisterVM_twice v cfg cfg' :
  cfg_vmID cfg' = cfg_vmID cfg ->
  snd (RegisterVM v cfg) = None ->
  inactive (fst (RegisterVM v cfg)) !! cfg_vmID cfg = Some (NewSnapshotState cfg) /\
  RegisterVM (fst (RegisterVM v cfg)) cfg'
  = (fst (RegisterVM v cfg), Some (errors_New "VM exists in the memory manager")).
Proof.
  intros Hid Hok. unfold RegisterVM in *. rewrite Hid.
  destruct (inactive v !! cfg_vmID cfg) eqn:Hi; [discriminate Hok|].
  destruct (activeVmFd v !! cfg_vmID cfg) eqn:Ha; [discriminate Hok|].
  simpl. rewrite lookup_insert_eq. split; reflexivity.
Qed.

(** X2.  [RegisterVM] and then [AddInstance] of a VM the manager did not know:
    [inactive] is back to what it was, and the VM is active under the
    descriptor received, with the state that [RegisterVM] made, the
    whole snapshot mapped and the descriptor stored. *)
Theorem RegisterVM_then_AddInstance v cfg k p f :
  inactive v !! cfg_vmID cfg = None ->
  activeVmFd v !! cfg_vmID cfg = None ->
  aa_map k = Mapped p ->
  aa_uffd k = Some f ->
  let state0 := NewSnapshotState cfg in
  let state :=
    set_UserFaultFD (set_guestMem state0 (mkSlice p (guestMemSize state0))) (Some f) in
  AddInstance (fst (RegisterVM v cfg)) (cfg_vmID cfg) k
  = ({| inactive := inactive v;
        activeFdState := <[f := state]> (activeFdState v);
        activeVmFd := <[cfg_vmID cfg := f]> (activeVmFd v);
        epfd := epfd v |},
     [SysOpen (guestMemFileName state0); SysMmap (guestMemSize state0);
      GetUFFD; SysEpollCtlAdd (epfd v) f],
     option_map Errno (aa_epoll_ctl k)).
Proof.
  intros Hi Ha Hm Hu state0 state.
  unfold RegisterVM. rewrite Hi, Ha. simpl.
  rewrite (AddInstance_mapped _ (cfg_vmID cfg) k (NewSnapshotState cfg) p);
    simpl; rewrite ?lookup_insert_eq, ?Hu; try reflexivity; try assumption.
  simpl. rewrite delete_insert_id by exact Hi. reflexivity.
Qed.

(** X3.  Once [AddInstance] has mapped the guest memory of a VM, whatever
    [epoll_ctl] answered, the VM cannot be added again, registered
    again or removed: each call is refused and changes nothing. *)
Theorem added_vm_is_stuck v vmID k state p :
  inactive v !! vmID = Some state ->
  activeVmFd v !! vmID = None ->
  aa_map k = Mapped p ->
  let v' := fst (fst (AddInstance v vmID k)) in
  (forall k2, AddInstance v' vmID k2
     = (v', [], Some (errors_New "VM not registered with the memory manager"))) /\
  (forall cfg, cfg_vmID cfg = vmID ->
     RegisterVM v' cfg
     = (v', Some (errors_New "VM already active in the memory manager"))) /\
  (forall k3, RemoveInstance assignInactive v' vmID k3
     = (v', [], Some (errors_New "VM not registered with the memory manager"))).
Proof.
  intros Hi Ha Hm v'.
  assert (Hi' : inactive v' !! vmID = None).
  { subst v'. rewrite (AddInstance_mapped v vmID k state p Hi Ha Hm). simpl.
    apply lookup_delete_eq. }
  assert (Ha' : is_Some (activeVmFd v' !! vmID)).
  { subst v'. rewrite (AddInstance_mapped v vmID k state p Hi Ha Hm). simpl.
    rewrite lookup_insert_eq. eauto. }
  split; [|split].
  - intros k2. unfold AddInstance. now rewrite Hi'.
  - intros cfg <-. unfold RegisterVM. rewrite Hi'.
    destruct Ha' as [fd ->]. reflexivity.
  - intros k3. unfold RemoveInstance. now rewrite Hi'.
Qed.

(** X4.  An [AddInstance] that failed to map the guest memory can be
    retried: the retry that maps it does what it would have done
    without the failed attempt. *)
Theorem AddInstance_retry_after_failed_map v vmID k1 k2 state p :
  inactive v !! vmID = Some state ->
  activeVmFd v !! vmID = None ->
  (forall q, aa_map k1 <> Mapped q) ->
  aa_map k2 = Mapped p ->
  is_Some (snd (AddInstance v vmID k1)) /\
  is_Some (inactive (fst (fst (AddInstance v vmID k1))) !! vmID) /\
  AddInstance (fst (fst (AddInstance v vmID k1))) vmID k2 = AddInstance v vmID k2.
Proof.
  intros Hi Ha Hfail Hm.
  assert (H1 : exists s1 tr e,
             AddInstance v vmID k1
             = ({| inactive := <[vmID := s1]> (inactive v);
                   activeFdState := activeFdState v;
                   activeVmFd := activeVmFd v;
                   epfd := epfd v |}, tr, Some e) /\
             guestMemFileName s1 = guestMemFileName state /\
             guestMemSize s1 = guestMemSize state /\
             UserFaultFD s1 = UserFaultFD state /\
             startAddressOnce s1 = startAddressOnce state /\
             startAddress s1 = startAddress state).
  { unfold AddInstance. rewrite Hi, Ha.
    destruct (aa_map k1) as [e | e | q] eqn:Hk1; [| |now destruct (Hfail q)]; simpl.
    - exists state. eexists _, _. repeat split.
    - exists (set_guestMem state nil_slice). eexists _, _. repeat split. }
  destruct H1 as (s1 & tr & e & -> & Hn & Hsz & Hu & Ho & Hb). simpl.
  rewrite lookup_insert_eq. split; [eauto|]. split; [eauto|].
  rewrite (AddInstance_mapped v vmID k2 state p Hi Ha Hm).
  rewrite (AddInstance_mapped _ vmID k2 s1 p); simpl;
    rewrite ?lookup_insert_eq; try reflexivity; try assumption.
  rewrite delete_insert_eq, Hn, Hsz.
  destruct s1, state; simpl in *; subst. reflexivity.
Qed.

End Lifecycle.

(** ** What the loop leaves alone *)

Lemma same_but_latch_refl st : same_but_latch st st.
Proof. repeat split. Qed.

Lemma same_but_latch_trans st1 st2 st3 :
  same_but_latch st1 st2 -> same_but_latch st2 st3 -> same_but_latch st1 st3.
Proof.
  intros (H1 & H2 & H3 & H4) (K1 & K2 & K3 & K4).
  repeat split; congruence.
Qed.

Lemma same_but_latch_latchStartAddress st address :
  same_but_latch st (latchStartAddress st address).
Proof. unfold latchStartAddress. destruct (startAddressOnce st); repeat split. Qed.

Lemma mgr_up_to_latch_refl v : mgr_up_to_latch v v.
Proof.
  repeat split. intros fd.
  destruct (activeFdState v !! fd) as [st|] eqn:H; [right | left; auto].
  exists st, st. auto using same_but_latch_refl.
Qed.

Lemma mgr_up_to_latch_trans v1 v2 v3 :
  mgr_up_to_latch v1 v2 -> mgr_up_to_latch v2 v3 -> mgr_up_to_latch v1 v3.
Proof.
  intros (H1 & H2 & H3 & H4) (K1 & K2 & K3 & K4).
  split; [congruence|]. split; [congruence|]. split; [congruence|].
  intros fd.
  destruct (H4 fd) as [[Ha Hb] | (st & st' & Ha & Hb & Hc)];
    destruct (K4 fd) as [[Ka Kb] | (st2 & st2' & Ka & Kb & Kc)]; try congruence.
  - left. auto.
  - right. exists st, st2'. split; [exact Ha|]. split; [exact Kb|].
    rewrite Hb in Ka. injection Ka as <-. eauto using same_but_latch_trans.
Qed.

Lemma mgr_up_to_latch_insert v fd st address :
  activeFdState v !! fd = Some st ->
  mgr_up_to_latch v
    {| inactive := inactive v;
       activeFdState := <[fd := latchStartAddress st address]> (activeFdState v);
       activeVmFd := activeVmFd v;
       epfd := epfd v |}.
Proof.
  intros Hst. repeat split. intros fd'. simpl.
  destruct (decide (fd = fd')) as [<- | Hne].
  - right. exists st, (latchStartAddress st address).
    rewrite lookup_insert_eq. auto using same_but_latch_latchStartAddress.
  - rewrite lookup_insert_ne by exact Hne.
    destruct (activeFdState v !! fd') as [st'|] eqn:H; [right | left; auto].
    exists st', st'. auto using same_but_latch_refl.
Qed.

Section LoopFrame.

Variable pageShift : Z.
Variable sizeof_struct_uffd_msg : nat.
Variable UFFD_EVENT_PAGEFAULT : byte.

Lemma serveEvent_frame event w w1 o :
  serveEvent sizeof_struct_uffd_msg UFFD_EVENT_PAGEFAULT event w = (w1, o) ->
  mgr_up_to_latch (w_mgr w) (w_mgr w1) /\ w_copy_errno w1 = w_copy_errno w.
Proof.
  rewrite serveEvent_eq.
  destruct (activeFdState (w_mgr w) !! Fd event) as [st|] eqn:Hev;
    [|intros [= <- _]; split; [apply mgr_up_to_latch_refl | reflexivity]].
  destruct (w_pending w !! Fd event) as [[|a rest]|];
    try (intros [= <- _]; split; [apply mgr_up_to_latch_refl | reflexivity]).
  destruct (extractPageFaultAddress sizeof_struct_uffd_msg UFFD_EVENT_PAGEFAULT a);
    intros [= <- _]; simpl;
    (split; [first [now apply mgr_up_to_latch_insert | apply mgr_up_to_latch_refl]
            | reflexivity]).
Qed.

Lemma run_steps_frame steps : forall w w' o,
  run_steps pageShift sizeof_struct_uffd_msg UFFD_EVENT_PAGEFAULT steps w = (w', o) ->
  mgr_up_to_latch (w_mgr w) (w_mgr w') /\ w_copy_errno w' = w_copy_errno w.
Proof.
  induction steps as [| s steps IH]; intros w w' o Hs.
  - injection Hs as <- <-. split; [apply mgr_up_to_latch_refl | reflexivity].
  - cbn [run_steps] in Hs. unfold mbind, Loop_bind in Hs.
    destruct (run_step pageShift sizeof_struct_uffd_msg UFFD_EVENT_PAGEFAULT s w)
      as [w1 o1] eqn:H1.
    assert (Hone : mgr_up_to_latch (w_mgr w) (w_mgr w1) /\ w_copy_errno w1 = w_copy_errno w).
    { destruct s as [event | i]; cbn [run_step] in H1.
      - now apply serveEvent_frame in H1.
      - apply run_task_frame in H1 as (-> & _ & ->).
        split; [apply mgr_up_to_latch_refl | reflexivity]. }
    destruct Hone as [Hm Hc].
    destruct o1 as [[] | msg | msg |]; try (injection Hs as <- <-; now split).
    apply IH in Hs as [Hm' Hc'].
    split; [eapply mgr_up_to_latch_trans; eassumption | congruence].
Qed.

(** The iteration of the loop is the run whose steps are its events. *)
Lemma serveEvents_run_steps events w :
  serveEvents sizeof_struct_uffd_msg UFFD_EVENT_PAGEFAULT events w
  = run_steps pageShift sizeof_struct_uffd_msg UFFD_EVENT_PAGEFAULT
      (map HandleEvent events) w.
Proof.
  revert w. induction events as [| event events IH]; intros w; [reflexivity|].
  cbn [map serveEvents run_steps run_step]. unfold mbind, Loop_bind.
  destruct (serveEvent sizeof_struct_uffd_msg UFFD_EVENT_PAGEFAULT event w)
    as [w1 [[] | msg | msg |]]; try reflexivity.
  apply IH.
Qed.

Lemma serveEvents_frame events w w' o :
  serveEvents sizeof_struct_uffd_msg UFFD_EVENT_PAGEFAULT events w = (w', o) ->
  mgr_up_to_latch (w_mgr w) (w_mgr w') /\ w_copy_errno w' = w_copy_errno w.
Proof.
  revert w. induction events as [| event events IH]; intros w Hs.
  - injection Hs as <- <-. split; [apply mgr_up_to_latch_refl | reflexivity].
  - cbn [serveEvents] in Hs. unfold mbind, Loop_bind in Hs.
    destruct (serveEvent sizeof_struct_uffd_msg UFFD_EVENT_PAGEFAULT event w)
      as [w1 o1] eqn:H1.
    apply serveEvent_frame in H1 as [Hm Hc].
    destruct o1 as [[] | msg | msg |]; try (injection Hs as <- <-; now split).
    apply IH in Hs as [Hm' Hc'].
    split; [eapply mgr_up_to_latch_trans; eassumption | congruence].
Qed.

(** X6.  The loop body only latches: [inactive], [activeVmFd] and [epfd] are
    as before, [activeFdState] has the same descriptors, and the state of
    each differs from the previous one in the base address only.  This
    holds for the iteration of the loop and for every run of the loop
    together with its goroutines. *)
Theorem serveEvents_only_latches events steps w w' o :
  serveEvents sizeof_struct_uffd_msg UFFD_EVENT_PAGEFAULT events w = (w', o) \/
  run_steps pageShift sizeof_struct_uffd_msg UFFD_EVENT_PAGEFAULT steps w = (w', o) ->
  mgr_up_to_latch (w_mgr w) (w_mgr w') /\ w_copy_errno w' = w_copy_errno w.
Proof.
  intros [H | H]; [now apply serveEvents_frame in H | now apply run_steps_frame in H].
Qed.

End LoopFrame.

(** ** Invariants of the reachable managers *)

Lemma indices_consistent_up_to_latch v v' :
  mgr_up_to_latch v v' -> indices_consistent v -> indices_consistent v'.
Proof.
  intros (Hi & Ha & _ & Hfd) [Hpool Hagree]. split.
  - intros vmID. rewrite Hi, Ha. apply Hpool.
  - intros fd. rewrite Ha, <- (Hagree fd).
    destruct (Hfd fd) as [[-> ->] | (st & st' & -> & -> & _)]; [reflexivity|].
    split; eauto.
Qed.

Lemma active_states_filed_up_to_latch v v' :
  mgr_up_to_latch v v' -> active_states_filed v -> active_states_filed v'.
Proof.
  intros (_ & _ & _ & Hfd) Hf fd st' Hst'.
  destruct (Hfd fd) as [[_ Hn] | (st & st2 & Hst & Hst2 & Hn & Hsz & Hg & Hu)];
    [congruence|].
  rewrite Hst' in Hst2. injection Hst2 as <-.
  destruct (Hf fd st Hst) as [H1 H2]. rewrite Hu, Hg, Hsz. auto.
Qed.

Lemma inactive_states_pristine_up_to_latch v v' :
  mgr_up_to_latch v v' -> inactive_states_pristine v -> inactive_states_pristine v'.
Proof. intros (Hi & _) Hp vmID st. rewrite Hi. apply Hp. Qed.

Section Reachable.

Variable pageShift : Z.
Variable sizeof_struct_uffd_msg : nat.
Variable UFFD_EVENT_PAGEFAULT : byte.
Variable assignInactive :
  string -> SnapshotState -> gmap string SnapshotState -> gmap string SnapshotState.

Lemma RegisterVM_wellformed v cfg :
  wellformed v -> wellformed (fst (RegisterVM v cfg)).
Proof.
  intros (Hc & Hf & Hp).
  pose proof (RegisterVM_pool v cfg (proj1 Hc)) as Hpool.
  unfold RegisterVM in *.
  destruct (inactive v !! cfg_vmID cfg) eqn:Hi; [exact (conj Hc (conj Hf Hp))|].
  destruct (activeVmFd v !! cfg_vmID cfg) eqn:Ha; [exact (conj Hc (conj Hf Hp))|].
  simpl in *. split; [split; [exact Hpool | exact (proj2 Hc)]|].
  split; [exact Hf|].
  intros vmID st. simpl.
  destruct (decide (cfg_vmID cfg = vmID)) as [<- | Hne].
  - rewrite lookup_insert_eq. intros [= <-]. repeat split.
  - rewrite lookup_insert_ne by exact Hne. apply Hp.
Qed.

Lemma AddInstance_wellformed v vmID k :
  wellformed v -> wellformed (fst (fst (AddInstance v vmID k))).
Proof.
  intros (Hc & Hf & Hp).
  pose proof (AddInstance_pool v vmID k (proj1 Hc)) as Hpool.
  pose proof (AddInstance_agree v vmID k (proj2 Hc)) as Hagree.
  destruct (AddInstance v vmID k) as [[v' tr] err] eqn:HA. simpl in *.
  split; [exact (conj Hpool Hagree)|].
  apply AddInstance_cases in HA
    as [(-> & _) | [(state & state1 & Hi & Ha & _ & Hmap & ->)
                   | (state & p & Hi & Ha & Hm & -> & _)]].
  - exact (conj Hf Hp).
  - split; [exact Hf|].
    intros x st. simpl.
    destruct (decide (vmID = x)) as [<- | Hne].
    + rewrite lookup_insert_eq. intros [= <-].
      destruct (Hp vmID state Hi) as (H1 & H2 & H3).
      unfold mapGuestMemory in Hmap.
      destruct (aa_map k); injection Hmap as <- _ _; auto.
    + rewrite lookup_insert_ne by exact Hne. apply Hp.
  - split.
    + intros fd st. simpl.
      set (state2 := getUFFD _ _).
      destruct (decide (File_Fd (UserFaultFD state2) = fd)) as [<- | Hne].
      * rewrite lookup_insert_eq. intros [= <-]. split; [reflexivity|].
        subst state2. now destruct (aa_uffd k).
      * rewrite lookup_insert_ne by exact Hne. apply Hf.
    + intros x st. simpl.
      destruct (decide (vmID = x)) as [<- | Hne].
      * now rewrite lookup_delete_eq.
      * rewrite lookup_delete_ne by exact Hne. apply Hp.
Qed.

Lemma apply_op_wellformed v o :
  wellformed v -> wellformed (apply_op assignInactive v o).
Proof.
  intros Hw. destruct o as [cfg | vmID k | vmID k | vmID]; simpl.
  - now apply RegisterVM_wellformed.
  - now apply AddInstance_wellformed.
  - destruct (RemoveInstance_never_succeeds assignInactive v vmID k (proj1 (proj1 Hw)))
      as (tr & e & ->). exact Hw.
  - exact Hw.
Qed.

Lemma reachable_wellformed v :
  reachable pageShift sizeof_struct_uffd_msg UFFD_EVENT_PAGEFAULT assignInactive v ->
  wellformed v.
Proof.
  induction 1 as [e | v o _ IH | w w' steps o _ IH Hs].
  - split; [split|split].
    + apply NewMemoryManager_pool.
    + intros fd. simpl. rewrite lookup_empty. split; [intros [? [=]]|].
      intros [vmID H]. simpl in H. now rewrite lookup_empty in H.
    + intros fd st H. simpl in H. now rewrite lookup_empty in H.
    + intros vmID st H. simpl in H. now rewrite lookup_empty in H.
  - now apply apply_op_wellformed.
  - apply run_steps_frame in Hs as [Hm _].
    destruct IH as (Hc & Hf & Hp).
    split; [eapply indices_consistent_up_to_latch; eassumption|].
    split; [eapply active_states_filed_up_to_latch; eassumption|].
    eapply inactive_states_pristine_up_to_latch; eassumption.
Qed.


(** X8.  In every reachable manager the state found under a descriptor holds
    that descriptor (-1 stands for no file), and its mapping is as long
    as the snapshot. *)
Theorem reachable_active_states_filed v :
  reachable pageShift sizeof_struct_uffd_msg UFFD_EVENT_PAGEFAULT assignInactive v -> active_states_filed v.
Proof. intros H. now apply reachable_wellformed in H as (_ & Hf & _). Qed.




End Reachable.

(** ** More on the event loop *)

Lemma reads_on_snoc fd t a :
  reads_on fd (t ++ [a]) = (reads_on fd t + if is_read fd a then 1 else 0)%nat.
Proof.
  unfold reads_on. rewrite List.filter_app, length_app. simpl.
  now destruct (is_read fd a).
Qed.

Lemma copies_on_snoc fd t a :
  copies_on fd (t ++ [a]) = (copies_on fd t + if is_copy fd a then 1 else 0)%nat.
Proof.
  unfold copies_on. rewrite List.filter_app, length_app. simpl.
  now destruct (is_copy fd a).
Qed.

Lemma tasks_on_snoc fd tasks t :
  tasks_on fd (tasks ++ [t]) = (tasks_on fd tasks + if (fst t =? fd)%Z then 1 else 0)%nat.
Proof.
  unfold tasks_on. rewrite List.filter_app, length_app. simpl.
  now destruct (fst t =? fd).
Qed.

Lemma tasks_on_delete fd tasks : forall i t,
  tasks !! i = Some t ->
  tasks_on fd tasks = (tasks_on fd (delete i tasks) + if (fst t =? fd)%Z then 1 else 0)%nat.
Proof.
  induction tasks as [| t0 tasks IH]; intros i t Hi; [discriminate Hi|].
  destruct i as [| i].
  - injection Hi as ->. unfold tasks_on. simpl.
    destruct (fst t =? fd); simpl; lia.
  - simpl in Hi. specialize (IH i t Hi). unfold tasks_on in *. simpl.
    destruct (fst t0 =? fd); simpl; lia.
Qed.

Section LoopFacts.

Variable pageShift : Z.
Variable sizeof_struct_uffd_msg : nat.
Variable UFFD_EVENT_PAGEFAULT : byte.

(** X12.  The first fault of a VM is served from byte 0 of its snapshot,
    whatever its address: the event is read, the base is latched at the
    address, the goroutine is started, and when it runs the copy takes
    its source at the start of the mapping.  With an empty mapping the
    goroutine panics on the index instead. *)
Theorem first_fault_served_from_byte_0 event w st a rest address :
  activeFdState (w_mgr w) !! Fd event = Some st ->
  startAddressOnce st = false ->
  w_pending w !! Fd event = Some (a :: rest) ->
  extractPageFaultAddress sizeof_struct_uffd_msg UFFD_EVENT_PAGEFAULT a = Done address ->
  let w1 := fst (serveEvent sizeof_struct_uffd_msg UFFD_EVENT_PAGEFAULT event w) in
  let w' := fst (run_task pageShift (length (w_tasks w)) w1) in
  let o := snd (run_task pageShift (length (w_tasks w)) w1) in
  snd (serveEvent sizeof_struct_uffd_msg UFFD_EVENT_PAGEFAULT event w) = Done tt /\
  w_trace w1 = w_trace w ++ [SysRead (Fd event)] /\
  w_tasks w1 = w_tasks w ++ [(Fd event, address)] /\
  w_pending w' !! Fd event = Some rest /\
  (exists st', activeFdState (w_mgr w') !! Fd event = Some st' /\
               startAddressOnce st' = true /\ startAddress st' = address) /\
  (0 < sl_len (guestMem st) ->
     o = Done tt /\
     w_tasks w' = w_tasks w /\
     w_trace w'
     = w_trace w ++
       [SysRead (Fd event);
        SysUffdioCopy (Fd event)
          {| uc_dst := fault_dst pageShift address;
             uc_src := sl_ptr (guestMem st);
             uc_len := uint64 (pageSize pageShift * 1);
             uc_mode := 0;
             uc_copy := 0 |}]) /\
  (sl_len (guestMem st) <= 0 ->
     o = Panic "index out of range" /\ w_trace w' = w_trace w ++ [SysRead (Fd event)]).
Proof.
  intros Hst Honce Hp Hx w1 w' o. subst w' o w1.
  rewrite serveEvent_eq, Hst, Hp, Hx. cbv beta iota zeta. cbn [fst snd].
  split; [reflexivity|]. split; [reflexivity|]. split; [reflexivity|].
  unfold run_task. cbn [w_tasks w_mgr w_copy_errno].
  rewrite list_lookup_middle by reflexivity.
  rewrite delete_middle, app_nil_r.
  unfold servePageFault, getSnapshotState. cbn [activeFdState].
  rewrite lookup_insert_eq. simpl.
  unfold latchStartAddress. rewrite Honce. simpl.
  unfold fault_offset. simpl. rewrite Z.sub_diag. change (uint64 0) with 0.
  unfold index_addr. simpl.
  destruct (Z.ltb_spec 0 (sl_len (guestMem st))); simpl.
  - split; [apply lookup_insert_eq|]. split.
    + eexists. rewrite lookup_insert_eq. split; [reflexivity|]. now split.
    + split; [|lia]. intros _. split; [reflexivity|]. split; [reflexivity|].
      rewrite <- app_assoc. simpl. now rewrite Z.add_0_r.
  - split; [apply lookup_insert_eq|]. split.
    + eexists. rewrite lookup_insert_eq. split; [reflexivity|]. now split.
    + split; [lia|]. intros _. now split.
Qed.

Lemma run_step_accounts s w w1 o fd :
  run_step pageShift sizeof_struct_uffd_msg UFFD_EVENT_PAGEFAULT s w = (w1, o) ->
  (copies_on fd (w_trace w1) + tasks_on fd (w_tasks w1) + reads_on fd (w_trace w)
   <= reads_on fd (w_trace w1) + copies_on fd (w_trace w) + tasks_on fd (w_tasks w))%nat /\
  (o = Done tt ->
   (copies_on fd (w_trace w1) + tasks_on fd (w_tasks w1) + reads_on fd (w_trace w)
    = reads_on fd (w_trace w1) + copies_on fd (w_trace w) + tasks_on fd (w_tasks w))%nat).
Proof.
  destruct s as [event | i]; cbn [run_step].
  - rewrite serveEvent_eq.
    destruct (activeFdState (w_mgr w) !! Fd event) as [st|];
      [|intros [= <- <-]; split; [lia | discriminate]].
    destruct (w_pending w !! Fd event) as [[|a rest]|];
      try (intros [= <- <-]; split; [lia | discriminate]).
    destruct (extractPageFaultAddress sizeof_struct_uffd_msg UFFD_EVENT_PAGEFAULT a);
      intros [= <- <-]; cbn [w_trace w_tasks];
      rewrite ?reads_on_snoc, ?copies_on_snoc, ?tasks_on_snoc; cbn [is_read is_copy fst];
      destruct (Fd event =? fd); (split; [lia | first [discriminate | lia]]).
  - unfold run_task.
    destruct (w_tasks w !! i) as [[fd' address]|] eqn:Hi;
      [|intros [= <- <-]; split; lia].
    pose proof (tasks_on_delete fd (w_tasks w) i (fd', address) Hi) as Hd.
    cbn [fst] in Hd.
    destruct (servePageFault pageShift (w_mgr w) fd' address (w_copy_errno w))
      as [act | msg | msg |] eqn:Hs.
    + apply servePageFault_Done in Hs as (st & _ & _ & ->).
      intros [= <- <-]. cbn [emit with_tasks w_trace w_tasks].
      rewrite reads_on_snoc, copies_on_snoc. cbn [is_read is_copy].
      destruct (fd' =? fd); split; lia.
    + intros [= <- <-]. cbn [with_tasks w_trace w_tasks].
      destruct (fd' =? fd); (split; [lia | discriminate]).
    + intros [= <- <-]. cbn [with_tasks w_trace w_tasks].
      destruct (fd' =? fd); (split; [lia | discriminate]).
    + intros [= <- <-]. cbn [with_tasks w_trace w_tasks].
      destruct (fd' =? fd); (split; [lia | discriminate]).
Qed.

(** X13.  In every run of the loop and of its goroutines, in whatever
    order they run, the copies issued on a descriptor plus the
    goroutines still to run for it never exceed the reads on that
    descriptor: a copy answers one earlier read, and no read is answered
    twice.  When nothing has failed, every read has its copy or its
    goroutine. *)
Theorem copies_answer_reads steps : forall w w' o fd,
  run_steps pageShift sizeof_struct_uffd_msg UFFD_EVENT_PAGEFAULT steps w = (w', o) ->
  (copies_on fd (w_trace w') + tasks_on fd (w_tasks w') + reads_on fd (w_trace w)
   <= reads_on fd (w_trace w') + copies_on fd (w_trace w) + tasks_on fd (w_tasks w))%nat /\
  (o = Done tt ->
   (copies_on fd (w_trace w') + tasks_on fd (w_tasks w') + reads_on fd (w_trace w)
    = reads_on fd (w_trace w') + copies_on fd (w_trace w) + tasks_on fd (w_tasks w))%nat).
Proof.
  induction steps as [| s steps IH]; intros w w' o fd Hs.
  - injection Hs as <- <-. split; lia.
  - cbn [run_steps] in Hs. unfold mbind, Loop_bind in Hs.
    destruct (run_step pageShift sizeof_struct_uffd_msg UFFD_EVENT_PAGEFAULT s w)
      as [w1 o1] eqn:H1.
    destruct (run_step_accounts s w w1 o1 fd H1) as [Hle Heq].
    destruct o1 as [[] | msg | msg |];
      try (injection Hs as <- <-; split; [exact Hle | discriminate]).
    destruct (IH w1 w' o fd Hs) as [Hle' Heq'].
    specialize (Heq eq_refl). split; [lia|]. intros Ho. specialize (Heq' Ho). lia.
Qed.

Lemma serveEvents_app l1 l2 w :
  serveEvents sizeof_struct_uffd_msg UFFD_EVENT_PAGEFAULT (l1 ++ l2) w
  = match serveEvents sizeof_struct_uffd_msg UFFD_EVENT_PAGEFAULT l1 w with
    | (w1, Done _) =>
        serveEvents sizeof_struct_uffd_msg UFFD_EVENT_PAGEFAULT l2 w1
    | (w1, Fatal msg) => (w1, Fatal msg)
    | (w1, Panic msg) => (w1, Panic msg)
    | (w1, Blocked) => (w1, Blocked)
    end.
Proof.
  revert w. induction l1 as [| e l1 IH]; intros w; [reflexivity|].
  cbn [app serveEvents]. unfold mbind, Loop_bind.
  destruct (serveEvent sizeof_struct_uffd_msg UFFD_EVENT_PAGEFAULT e w)
    as [w1 [[] | msg | msg |]]; try reflexivity.
  apply IH.
Qed.

Lemma serveEvent_inactive event w :
  activeFdState (w_mgr w) !! Fd event = None ->
  serveEvent sizeof_struct_uffd_msg UFFD_EVENT_PAGEFAULT event w
  = (w, Fatal "received event from file which is not active").
Proof. intros H. rewrite serveEvent_eq. now rewrite H. Qed.

(** X15.  Starting from the array as declared, a wait that reports fewer
    events than the array has slots never lets the iteration complete
    when descriptor 0 is not a userfault descriptor of the manager: the
    loop reaches a slot that was not filled and stops the process (or
    stops earlier). *)
Theorem pollingLoop_wake_never_completes w ready :
  (length ready < 1000)%nat ->
  activeFdState (w_mgr w) !! 0 = None ->
  snd (pollingLoop_wake sizeof_struct_uffd_msg UFFD_EVENT_PAGEFAULT
         events0 (mkWaitAnswer ready None) w) <> Done tt.
Proof.
  intros Hlen H0. unfold pollingLoop_wake, EpollWait. cbn [wa_err wa_ready].
  assert (Hev : length events0 = 1000%nat) by (unfold events0; apply length_replicate).
  rewrite Hev, take_ge by lia.
  destruct (Z.ltb_spec (Z.of_nat (length ready)) 1); [simpl; discriminate|].
  assert (Hdrop : drop (length ready) events0
                  = mkEpollEvent 0 0 0 :: replicate (999 - length ready) (mkEpollEvent 0 0 0)).
  { unfold events0. rewrite drop_replicate.
    replace (1000 - length ready)%nat with (S (999 - length ready)) by lia. reflexivity. }
  rewrite Hdrop, serveEvents_app.
  destruct (serveEvents sizeof_struct_uffd_msg UFFD_EVENT_PAGEFAULT ready w)
    as [w1 o1] eqn:H1.
  apply serveEvents_frame in H1 as [(_ & _ & _ & Hfd) _].
  destruct o1 as [[] | msg | msg |]; simpl; try discriminate.
  cbn [serveEvents]. unfold mbind at 1, Loop_bind at 1.
  rewrite serveEvent_inactive; [simpl; discriminate|]. cbn [Fd].
  destruct (Hfd 0) as [[_ ->] | (st & st' & Hst & _)]; [reflexivity | congruence].
Qed.

(** X16.  A wait that fails or reports no event ends the process before any
    descriptor is read: the world is as it was. *)
Theorem pollingLoop_wake_nothing_ready events w a :
  wa_err a <> None \/ wa_ready a = [] ->
  exists o,
    pollingLoop_wake sizeof_struct_uffd_msg UFFD_EVENT_PAGEFAULT events a w
    = (w, events, o) /\
    (o = Fatal "epoll_wait" \/ o = Panic "Wrong number of events").
Proof.
  intros H. unfold pollingLoop_wake, EpollWait.
  destruct (wa_err a) as [e|] eqn:He.
  - eexists. split; [reflexivity|]. now left.
  - destruct H as [H | H]; [congruence|].
    rewrite H, take_nil. simpl. rewrite drop_0.
    eexists. split; [reflexivity|]. now right.
Qed.

End LoopFacts.

(** ** More on page serving *)

Section PageCases.

Variable pageShift : Z.

(** X17.  [servePageFault] issues a copy exactly when the descriptor is active
    and the offset of the fault is below the length of the mapping; an
    unknown descriptor ends the process with the message of
    [getSnapshotState], an offset beyond the mapping with a panic. *)
Theorem servePageFault_cases v fd address kernel :
  match activeFdState v !! fd with
  | None =>
      servePageFault pageShift v fd address kernel
      = Fatal "getSnapshotState: fd not found"
  | Some state =>
      if fault_offset state address <? sl_len (guestMem state)
      then exists c, servePageFault pageShift v fd address kernel = Done (SysUffdioCopy fd c)
      else servePageFault pageShift v fd address kernel = Panic "index out of range"
  end.
Proof.
  destruct (activeFdState v !! fd) as [state|] eqn:Hst.
  - destruct (Z.ltb_spec (fault_offset state address) (sl_len (guestMem state))).
    + destruct (servePageFault_in_range pageShift v fd address kernel state Hst H)
        as [act Hact].
      pose proof Hact as Hact'.
      apply servePageFault_Done in Hact' as (st & _ & _ & ->). eauto.
    + now apply servePageFault_out_of_range with (state := state).
  - unfold servePageFault, getSnapshotState. now rewrite Hst.
Qed.

End PageCases.

Section PageFacts.

Variable pageShift : Z.
Hypothesis pageShift_range : 0 <= pageShift < 63.

(** X18.  The destination of a copy is the start of the page of the fault: a
    multiple of the page size, at most the address and less than a page
    below it; aligning twice changes nothing, and an aligned address is
    its own destination. *)
Theorem fault_dst_page_start address :
  0 <= address < 2 ^ 64 ->
  (pageSize pageShift | fault_dst pageShift address) /\
  fault_dst pageShift address <= address < fault_dst pageShift address + pageSize pageShift /\
  fault_dst pageShift (fault_dst pageShift address) = fault_dst pageShift address /\
  ((pageSize pageShift | address) -> fault_dst pageShift address = address).
Proof.
  intros Ha. pose proof (pageSize_range pageShift pageShift_range) as Hp.
  rewrite !(fault_dst_aligned pageShift pageShift_range address Ha).
  pose proof (Z.mod_pos_bound address (pageSize pageShift) ltac:(lia)) as Hm.
  pose proof (Z.div_mod address (pageSize pageShift) ltac:(lia)) as Hd.
  pose proof (Z.mod_le address (pageSize pageShift) ltac:(lia) ltac:(lia)) as Hle.
  assert (Hdiv : (pageSize pageShift | address - address mod pageSize pageShift)).
  { exists (address / pageSize pageShift). lia. }
  split; [exact Hdiv|]. split; [lia|]. split.
  - rewrite (fault_dst_aligned pageShift pageShift_range) by lia.
    apply Z.mod_divide in Hdiv; lia.
  - intros Hal. apply Z.mod_divide in Hal; lia.
Qed.

(** X19.  Two served faults of the same page get the same destination, while
    their sources are as far apart as the faults: the source is not
    brought back to the start of the page. *)
Theorem same_page_same_dst v fd a b kernel ca cb :
  0 <= a < 2 ^ 64 -> 0 <= b < 2 ^ 64 ->
  a / pageSize pageShift = b / pageSize pageShift ->
  servePageFault pageShift v fd a kernel = Done (SysUffdioCopy fd ca) ->
  servePageFault pageShift v fd b kernel = Done (SysUffdioCopy fd cb) ->
  uc_dst ca = uc_dst cb /\
  (forall state, activeFdState v !! fd = Some state ->
     0 <= startAddress state <= a -> startAddress state <= b ->
     uc_src cb - uc_src ca = b - a).
Proof.
  intros Ha Hb Hpage Hsa Hsb.
  pose proof (pageSize_range pageShift pageShift_range) as Hp.
  apply servePageFault_Done in Hsa as (sa & Hsta & _ & [= ->]).
  apply servePageFault_Done in Hsb as (sb & Hstb & _ & [= ->]).
  simpl. split.
  - rewrite !(fault_dst_aligned pageShift pageShift_range) by assumption.
    pose proof (Z.div_mod a (pageSize pageShift) ltac:(lia)).
    pose proof (Z.div_mod b (pageSize pageShift) ltac:(lia)).
    rewrite Hpage in *. lia.
  - intros state Hst Hba Hbb.
    rewrite Hsta in Hstb. injection Hstb as <-.
    rewrite Hsta in Hst. injection Hst as <-.
    unfold fault_offset. rewrite !uint64_small by lia. lia.
Qed.

End PageFacts.

(** ** Messages of the kernel *)

Lemma uint8_byte_of_Z z : uint8 (Scenario.byte_of_Z z) = z mod 256.
Proof.
  unfold uint8, Scenario.byte_of_Z.
  pose proof (Z.mod_pos_bound z 256 ltac:(lia)) as Hm.
  destruct (Byte.of_N (Z.to_N (z mod 256))) as [b|] eqn:Hb.
  - apply Byte.to_of_N in Hb. rewrite Hb. lia.
  - apply Byte.of_N_None_iff in Hb. lia.
Qed.

Lemma little_endian_le_bytes n : forall z,
  little_endian (Scenario.le_bytes n z) = z mod 2 ^ (8 * Z.of_nat n).
Proof.
  induction n as [| n IH]; intros z.
  - simpl. now rewrite Z.mod_1_r.
  - cbn [Scenario.le_bytes little_endian].
    rewrite uint8_byte_of_Z, IH.
    replace (8 * Z.of_nat (S n)) with (8 + 8 * Z.of_nat n) by lia.
    rewrite Z.pow_add_r by lia. change (2 ^ 8) with 256.
    rewrite Z.rem_mul_r by lia. reflexivity.
Qed.

(** X20.  A page-fault message that carries an address in bytes 16 to 23,
    least significant byte first, is read back as that address. *)
Theorem extractPageFaultAddress_uffd_msg (event : byte) (address : Z) :
  0 <= address < 2 ^ 64 ->
  extractPageFaultAddress 32 event (ReadOk (Scenario.uffd_msg event address))
  = Done address.
Proof.
  intros Ha.
  rewrite (extract_full 32 event ltac:(lia) _ event); [| reflexivity | reflexivity].
  rewrite Z.eqb_refl. simpl negb. cbv iota.
  f_equal. unfold Scenario.uffd_msg.
  change (take 8 (drop 16 (event :: replicate 15 x00 ++
            Scenario.le_bytes 8 address ++ replicate 8 x00)))
    with (Scenario.le_bytes 8 address).
  rewrite little_endian_le_bytes. apply Z.mod_small. exact Ha.
Qed.

(** ** The measurement client *)

Section MeasureFacts.

Variable ProtoDuration : Type.
Variable AsDuration : ProtoDuration -> Z.
Variable InvocationStatus_COMPLETED : Z.

Lemma End_fold invocations : forall acc,
  fold_left (Invoker.End_step ProtoDuration AsDuration InvocationStatus_COMPLETED)
    invocations acc
  = acc ++ map (fun inv => AsDuration (Invoker.Duration _ inv))
             (filter (fun inv => Invoker.Status _ inv = InvocationStatus_COMPLETED)
                invocations).
Proof.
  induction invocations as [| inv invocations IH]; intros acc; simpl.
  - now rewrite app_nil_r.
  - rewrite IH. unfold Invoker.End_step.
    rewrite filter_cons.
    destruct (Z.eqb_spec (Invoker.Status _ inv) InvocationStatus_COMPLETED)
      as [Heq | Hne]; simpl.
    + rewrite decide_True by exact Heq. simpl. now rewrite <- app_assoc.
    + now rewrite decide_False by exact Hne.
Qed.

(** X21.  [End] returns the durations of the completed invocations, in the
    order of the answer, and nothing for the others: never more
    durations than invocations; a failed [EndExperiment] ends the
    process. *)
Theorem End_completed_durations :
  (forall e,
     Invoker.End ProtoDuration AsDuration InvocationStatus_COMPLETED (inr e)
     = Fatal "failed to end experiment") /\
  (forall invocations,
     let durations :=
       map (fun inv => AsDuration (Invoker.Duration _ inv))
         (filter (fun inv => Invoker.Status _ inv = InvocationStatus_COMPLETED)
            invocations) in
     Invoker.End ProtoDuration AsDuration InvocationStatus_COMPLETED (inl invocations)
     = Done durations /\
     (length durations <= length invocations)%nat).
Proof.
  split; [reflexivity|]. intros invocations durations. split.
  - unfold Invoker.End. now rewrite End_fold.
  - subst durations. rewrite length_map. apply length_filter.
Qed.

End MeasureFacts.

(** ** More on the registry and on the queues *)

Section AddOutcome.

(** X5.  [AddInstance] returns no error exactly when the VM is inactive, not
    active, its guest memory gets mapped and [epoll_ctl] accepts the
    descriptor; whether a descriptor arrived from the hypervisor plays
    no part. *)
Theorem AddInstance_succeeds_iff v vmID k :
  snd (AddInstance v vmID k) = None <->
  is_Some (inactive v !! vmID) /\ activeVmFd v !! vmID = None /\
  (exists p, aa_map k = Mapped p) /\ aa_epoll_ctl k = None.
Proof.
  unfold AddInstance.
  destruct (inactive v !! vmID) as [state|] eqn:Hi; simpl.
  2: { split; [discriminate | intros ([? [=]] & _)]. }
  destruct (activeVmFd v !! vmID) eqn:Ha; simpl.
  { split; [discriminate | intros (_ & [=] & _)]. }
  destruct (aa_map k) as [e | e | p]; simpl.
  - split; [discriminate | intros (_ & _ & [q [=]] & _)].
  - split; [discriminate | intros (_ & _ & [q [=]] & _)].
  - destruct (aa_epoll_ctl k); simpl.
    + split; [discriminate | intros (_ & _ & _ & [=])].
    + split; [|reflexivity]. intros _. repeat split; eauto.
Qed.

End AddOutcome.

Section Pending.

Variable sizeof_struct_uffd_msg : nat.
Variable UFFD_EVENT_PAGEFAULT : byte.

Lemma serveEvent_pending event w w1 :
  serveEvent sizeof_struct_uffd_msg UFFD_EVENT_PAGEFAULT event w = (w1, Done tt) ->
  exists a rest,
    w_pending w !! Fd event = Some (a :: rest) /\
    w_pending w1 = <[Fd event := rest]> (w_pending w) /\
    w_trace w1 = w_trace w ++ [SysRead (Fd event)].
Proof.
  rewrite serveEvent_eq.
  destruct (activeFdState (w_mgr w) !! Fd event) as [st|]; [|discriminate].
  destruct (w_pending w !! Fd event) as [[|a rest]|]; try discriminate.
  destruct (extractPageFaultAddress sizeof_struct_uffd_msg UFFD_EVENT_PAGEFAULT a);
    try discriminate.
  intros [= <-]. simpl. eauto.
Qed.

(** X14.  When the loop gets through a list of events, each descriptor
    has lost, from the front of its queue, as many messages as the list
    has events for it: one read per event, in the order of the events,
    and no read on any other descriptor.  The goroutines it started play
    no part in that. *)
Theorem serveEvents_consumes_one_message_per_event events : forall w w' fd,
  serveEvents sizeof_struct_uffd_msg UFFD_EVENT_PAGEFAULT events w = (w', Done tt) ->
  let n := length (filter (fun e => Fd e = fd) events) in
  w_pending w' !! fd = drop n <$> w_pending w !! fd /\
  ((0 < n)%nat -> exists msgs, w_pending w !! fd = Some msgs /\ (n <= length msgs)%nat) /\
  w_trace w' = w_trace w ++ map (fun e => SysRead (Fd e)) events.
Proof.
  induction events as [| event events IH]; intros w w' fd Hs n; subst n.
  - injection Hs as <-. simpl. rewrite app_nil_r. split; [|split; [lia | reflexivity]].
    destruct (w_pending w !! fd); reflexivity.
  - cbn [serveEvents] in Hs. unfold mbind, Loop_bind in Hs.
    destruct (serveEvent sizeof_struct_uffd_msg UFFD_EVENT_PAGEFAULT event w)
      as [w1 o1] eqn:H1.
    destruct o1 as [[] | msg | msg |]; try discriminate.
    apply serveEvent_pending in H1 as (a & rest & Hp & Hw1 & Ht1).
    destruct (IH w1 w' fd Hs) as (Hdrop & Hbound & Ht).
    assert (Htrace : w_trace w' = w_trace w ++ map (fun e => SysRead (Fd e)) (event :: events))
      by (rewrite Ht, Ht1, <- app_assoc; reflexivity).
    rewrite filter_cons.
    destruct (decide (Fd event = fd)) as [<- | Hne].
    + rewrite Hw1, lookup_insert_eq in Hdrop, Hbound. rewrite Hp. simpl.
      split; [exact Hdrop|]. split; [|exact Htrace].
      intros _. exists (a :: rest). split; [reflexivity|]. simpl.
      destruct (filter (fun e => Fd e = Fd event) events) as [| e0 l] eqn:Hf; [simpl; lia|].
      destruct (Hbound ltac:(simpl; lia)) as (msgs & [= <-] & Hle). lia.
    + rewrite Hw1, lookup_insert_ne in Hdrop, Hbound by exact Hne.
      split; [exact Hdrop|]. split; [exact Hbound | exact Htrace].
Qed.

End Pending.

(** ** Concrete instances *)

Lemma servePageFault_copy_request_witness :
  exists state,
    activeFdState Scenario.latched !! 7 = Some state /\
    SysUffdioCopy 7 (mk_uffdio_copy (Scenario.base + 4096) (Scenario.host + 4096 + 5) 4096 0 0)
    = SysUffdioCopy 7
        {| uc_dst := (Scenario.base + 4101) - (Scenario.base + 4101) mod (pageSize 12);
           uc_src := sl_ptr (guestMem state) + fault_offset state (Scenario.base + 4101);
           uc_len := pageSize 12;
           uc_mode := 0;
           uc_copy := 0 |}.
Proof.
  destruct (servePageFault_copy_request 12 ltac:(lia) Scenario.latched 7
              (Scenario.base + 4101) Scenario.no_errno
              (SysUffdioCopy 7 (mk_uffdio_copy (Scenario.base + 4096)
                                  (Scenario.host + 4096 + 5) 4096 0 0)))
    as (state & Hst & Hact & _).
  - vm_compute. split; [discriminate | reflexivity].
  - vm_compute. reflexivity.
  - exists state. split; assumption.
Defined.

(** C2 as stated fails: the fault at [base + 8191] has offset 8191, its
    page ends beyond the 8192 bytes of the snapshot, and it is served. *)
Lemma page_bound_not_enforced :
  ~ page_bound_enforced 12 Scenario.latched 7 (Scenario.base + 8191).
Proof.
  intros H.
  destruct (H Scenario.state_vm1 Scenario.no_errno) as [[_ Hb] | Hno].
  - vm_compute. reflexivity.
  - vm_compute in Hb. apply Hb. reflexivity.
  - eapply Hno. vm_compute. reflexivity.
Qed.

Lemma served_fault_inside_mapping_witness :
  servePageFault 12 Scenario.latched 7 (Scenario.base + 8192) Scenario.no_errno
  = Panic "index out of range".
Proof.
  refine (proj1 (proj2 (proj2
    (served_fault_inside_mapping 12 ltac:(lia) Scenario.latched 7 (Scenario.base + 8192)
       Scenario.no_errno
       Scenario.state_vm1 _ _ _))) _ _).
  - vm_compute. reflexivity.
  - reflexivity.
  - vm_compute. split; [discriminate | reflexivity].
  - vm_compute. split; [discriminate | reflexivity].
  - vm_compute. reflexivity.
Defined.

Lemma fault_offset_wraps_below_base_witness :
  fault_offset Scenario.state_high 0 = 4096 /\
  servePageFault 12 Scenario.latched_high 7 0 Scenario.no_errno
  = Done (SysUffdioCopy 7 (mk_uffdio_copy 0 (Scenario.host + 4096) 4096 0 0)).
Proof.
  destruct (fault_offset_wraps_below_base 12 Scenario.latched_high 7 0
              Scenario.no_errno Scenario.state_high)
    as (Hoff & _ & _ & _ & _).
  - vm_compute. reflexivity.
  - vm_compute. split; [discriminate | reflexivity].
  - vm_compute. reflexivity.
  - split; [rewrite Hoff; vm_compute; reflexivity | vm_compute; reflexivity].
Defined.



(** C7 as stated fails: no descriptor arrives, and vm1 leaves [inactive]
    for the active indices under descriptor -1; nothing is unmapped. *)
Lemma uffd_failure_not_rolled_back :
  ~ uffd_failure_rolled_back Scenario.registered "vm1" Scenario.add_no_uffd.
Proof.
  intros H.
  destruct (H eq_refl
              (fst (fst (AddInstance Scenario.registered "vm1" Scenario.add_no_uffd)))
              (snd (fst (AddInstance Scenario.registered "vm1" Scenario.add_no_uffd)))
              (snd (AddInstance Scenario.registered "vm1" Scenario.add_no_uffd)))
    as (_ & _ & [s Hs]).
  - vm_compute. reflexivity.
  - vm_compute in Hs. discriminate Hs.
Qed.

Lemma AddInstance_does_not_test_getUFFD_witness :
  exists v' tr state2,
    AddInstance Scenario.registered "vm1" Scenario.add_no_uffd
    = (v', tr, Some (Errno 9)) /\
    inactive v' !! "vm1"%string = None /\
    activeVmFd v' !! "vm1"%string = Some (File_Fd (UserFaultFD state2)) /\
    File_Fd (UserFaultFD state2) = -1.
Proof.
  destruct (AddInstance_does_not_test_getUFFD Scenario.registered "vm1"
              Scenario.add_no_uffd (NewSnapshotState Scenario.cfg_vm1) Scenario.host)
    as (v' & tr & state2 & HA & Hi & Hv & _ & _ & Hnone & Hfd).
  - vm_compute. reflexivity.
  - vm_compute. reflexivity.
  - reflexivity.
  - exists v', tr, state2. repeat split; try assumption.
    apply Hfd. rewrite Hnone; reflexivity.
Defined.

Lemma extractPageFaultAddress_fatal_iff_witness :
  exists data,
    Scenario.pagefault Scenario.base = ReadOk data /\
    extractPageFaultAddress 32 x12 (Scenario.pagefault Scenario.base)
    = Done (little_endian (take 8 (drop 16 data))) /\
    little_endian (take 8 (drop 16 data)) = Scenario.base.
Proof.
  destruct (proj2 (extractPageFaultAddress_fatal_iff 32 x12 ltac:(lia)
                     (Scenario.pagefault Scenario.base)))
    as (data & Hdata & Hx & _).
  - intros [[e He] | [(d & Hd & Hlen) | (d & c & Hd & Hc & Hcne)]].
    + discriminate He.
    + injection Hd as <-. vm_compute in Hlen. lia.
    + injection Hd as <-. vm_compute in Hc. injection Hc as <-. now apply Hcne.
  - exists data. split; [exact Hdata|]. split; [exact Hx|].
    injection Hdata as <-. vm_compute. reflexivity.
Defined.

Lemma startAddress_latched_once_witness :
  exists st',
    activeFdState
      (w_mgr (fst (run_steps 12 32 x12
                     [HandleEvent Scenario.ready7; RunTask 0; HandleEvent Scenario.ready7]
                     Scenario.world0))) !! 7 = Some st' /\
    startAddressOnce st' = true /\
    startAddress st' = Scenario.base.
Proof.
  destruct (startAddress_latched_once 12 32 x12
              [HandleEvent Scenario.ready7; RunTask 0; HandleEvent Scenario.ready7]
              Scenario.world0
              (fst (run_steps 12 32 x12
                      [HandleEvent Scenario.ready7; RunTask 0; HandleEvent Scenario.ready7]
                      Scenario.world0))
              (snd (run_steps 12 32 x12
                      [HandleEvent Scenario.ready7; RunTask 0; HandleEvent Scenario.ready7]
                      Scenario.world0))
              7 Scenario.state_vm1_added)
    as (st' & Hst' & _ & Hunlatched).
  - apply surjective_pairing.
  - vm_compute. reflexivity.
  - destruct (Hunlatched eq_refl)
      as [[-> _] | (a & rest & address & Hp & Hx & Honce & Haddr)].
    + vm_compute in Hst'. discriminate Hst'.
    + exists st'. split; [exact Hst'|]. split; [exact Honce|].
      vm_compute in Hp. injection Hp as <- <-.
      vm_compute in Hx. injection Hx as <-.
      rewrite Haddr. reflexivity.
Defined.

Lemma Scenario_added_reachable :
  reachable 12 32 x12 Scenario.assignInactive Scenario.added.
Proof.
  exact (reach_op 12 32 x12 Scenario.assignInactive _
           (OpAddInstance "vm1" Scenario.add_ok)
           (reach_op 12 32 x12 Scenario.assignInactive _
              (OpRegisterVM Scenario.cfg_vm1)
              (reach_new 12 32 x12 Scenario.assignInactive 3))).
Qed.

Lemma RegisterVM_twice_witness :
  inactive Scenario.registered !! "vm1"%string = Some (NewSnapshotState Scenario.cfg_vm1) /\
  RegisterVM Scenario.registered Scenario.cfg_vm1
  = (Scenario.registered, Some (errors_New "VM exists in the memory manager")).
Proof.
  apply (RegisterVM_twice Scenario.fresh Scenario.cfg_vm1 Scenario.cfg_vm1).
  - reflexivity.
  - vm_compute. reflexivity.
Defined.

Lemma RegisterVM_then_AddInstance_witness :
  fst (fst (AddInstance Scenario.registered "vm1" Scenario.add_ok))
  = {| inactive := ∅;
       activeFdState := {[ 7 := Scenario.state_vm1_added ]};
       activeVmFd := {[ "vm1"%string := 7 ]};
       epfd := 3 |}.
Proof.
  change Scenario.registered with (fst (RegisterVM Scenario.fresh Scenario.cfg_vm1)).
  change "vm1"%string with (cfg_vmID Scenario.cfg_vm1) at 1.
  rewrite (RegisterVM_then_AddInstance Scenario.fresh Scenario.cfg_vm1
             Scenario.add_ok Scenario.host 7).
  - reflexivity.
  - vm_compute. reflexivity.
  - vm_compute. reflexivity.
  - reflexivity.
  - reflexivity.
Defined.

Lemma added_vm_is_stuck_witness :
  AddInstance
    (fst (fst (AddInstance Scenario.registered "vm1" Scenario.add_epoll_fails)))
    "vm1" Scenario.add_ok
  = (fst (fst (AddInstance Scenario.registered "vm1" Scenario.add_epoll_fails)), [],
     Some (errors_New "VM not registered with the memory manager")).
Proof.
  refine (proj1 (added_vm_is_stuck Scenario.assignInactive Scenario.registered "vm1"
                   Scenario.add_epoll_fails (NewSnapshotState Scenario.cfg_vm1)
                   Scenario.host _ _ _) Scenario.add_ok).
  - vm_compute. reflexivity.
  - vm_compute. reflexivity.
  - reflexivity.
Defined.

Lemma AddInstance_retry_after_failed_map_witness :
  AddInstance
    (fst (fst (AddInstance Scenario.registered "vm1" (mkAddAnswers (OpenFails 2) None None))))
    "vm1" Scenario.add_ok
  = AddInstance Scenario.registered "vm1" Scenario.add_ok.
Proof.
  refine (proj2 (proj2
    (AddInstance_retry_after_failed_map Scenario.registered "vm1"
       (mkAddAnswers (OpenFails 2) None None) Scenario.add_ok
       (NewSnapshotState Scenario.cfg_vm1) Scenario.host _ _ _ _))).
  - vm_compute. reflexivity.
  - vm_compute. reflexivity.
  - intros q. discriminate.
  - reflexivity.
Defined.

Lemma serveEvents_only_latches_witness :
  mgr_up_to_latch Scenario.added
    (w_mgr (fst (serveEvents 32 x12 [Scenario.ready7] Scenario.world0))).
Proof.
  refine (proj1 (serveEvents_only_latches 12 32 x12 [Scenario.ready7] [] Scenario.world0 _
                   (snd (serveEvents 32 x12 [Scenario.ready7] Scenario.world0))
                   (or_introl _))).
  apply surjective_pairing.
Defined.


Lemma reachable_active_states_filed_witness : active_states_filed Scenario.added.
Proof.
  exact (reachable_active_states_filed 12 32 x12 Scenario.assignInactive
           Scenario.added Scenario_added_reachable).
Defined.




Lemma first_fault_served_from_byte_0_witness :
  snd (run_task 12 (length (w_tasks Scenario.world0))
         (fst (serveEvent 32 x12 Scenario.ready7 Scenario.world0))) = Done tt /\
  w_tasks (fst (run_task 12 (length (w_tasks Scenario.world0))
                  (fst (serveEvent 32 x12 Scenario.ready7 Scenario.world0))))
  = w_tasks Scenario.world0 /\
  w_trace (fst (run_task 12 (length (w_tasks Scenario.world0))
                  (fst (serveEvent 32 x12 Scenario.ready7 Scenario.world0))))
  = w_trace Scenario.world0 ++
    [SysRead (Fd Scenario.ready7);
     SysUffdioCopy (Fd Scenario.ready7)
       {| uc_dst := fault_dst 12 Scenario.base;
          uc_src := sl_ptr (guestMem Scenario.state_vm1_added);
          uc_len := uint64 (pageSize 12 * 1);
          uc_mode := 0;
          uc_copy := 0 |}].
Proof.
  destruct (first_fault_served_from_byte_0 12 32 x12 Scenario.ready7
              Scenario.world0 Scenario.state_vm1_added
              (Scenario.pagefault Scenario.base)
              [Scenario.pagefault (Scenario.base + 4096)] Scenario.base)
    as (_ & _ & _ & _ & _ & Hserved & _).
  - vm_compute. reflexivity.
  - reflexivity.
  - vm_compute. reflexivity.
  - vm_compute. reflexivity.
  - apply Hserved. vm_compute. reflexivity.
Defined.

Lemma copies_answer_reads_witness :
  (copies_on 7
     (w_trace (fst (run_steps 12 32 x12
                      [HandleEvent Scenario.ready7; HandleEvent Scenario.ready7; RunTask 1]
                      Scenario.world0)))
   + tasks_on 7
       (w_tasks (fst (run_steps 12 32 x12
                        [HandleEvent Scenario.ready7; HandleEvent Scenario.ready7; RunTask 1]
                        Scenario.world0)))
   + reads_on 7 (w_trace Scenario.world0)
   <= reads_on 7
        (w_trace (fst (run_steps 12 32 x12
                         [HandleEvent Scenario.ready7; HandleEvent Scenario.ready7; RunTask 1]
                         Scenario.world0)))
      + copies_on 7 (w_trace Scenario.world0)
      + tasks_on 7 (w_tasks Scenario.world0))%nat.
Proof.
  refine (proj1 (copies_answer_reads 12 32 x12
                   [HandleEvent Scenario.ready7; HandleEvent Scenario.ready7; RunTask 1]
                   Scenario.world0 _
                   (snd (run_steps 12 32 x12
                           [HandleEvent Scenario.ready7; HandleEvent Scenario.ready7;
                            RunTask 1]
                           Scenario.world0))
                   7 _)).
  apply surjective_pairing.
Defined.

Lemma pollingLoop_wake_never_completes_witness :
  snd (pollingLoop_wake 32 x12 events0 (mkWaitAnswer [Scenario.ready7] None)
         Scenario.world0) <> Done tt /\
  snd (pollingLoop_wake 32 x12 events0 (mkWaitAnswer [Scenario.ready7] None)
         Scenario.world0) = Fatal "received event from file which is not active".
Proof.
  split.
  - apply (pollingLoop_wake_never_completes 32 x12 Scenario.world0 [Scenario.ready7]).
    + simpl. lia.
    + vm_compute. reflexivity.
  - vm_compute. reflexivity.
Defined.

Lemma pollingLoop_wake_nothing_ready_witness :
  exists o,
    pollingLoop_wake 32 x12 events0 (mkWaitAnswer [] None) Scenario.world0
    = (Scenario.world0, events0, o) /\
    (o = Fatal "epoll_wait" \/ o = Panic "Wrong number of events").
Proof.
  apply (pollingLoop_wake_nothing_ready 32 x12 events0 Scenario.world0
           (mkWaitAnswer [] None)).
  right. reflexivity.
Defined.

Lemma fault_dst_page_start_witness :
  (pageSize 12 | fault_dst 12 (Scenario.base + 5)) /\
  fault_dst 12 (Scenario.base + 5) <= Scenario.base + 5
    < fault_dst 12 (Scenario.base + 5) + pageSize 12 /\
  fault_dst 12 (fault_dst 12 (Scenario.base + 5)) = fault_dst 12 (Scenario.base + 5) /\
  ((pageSize 12 | Scenario.base + 5) ->
   fault_dst 12 (Scenario.base + 5) = Scenario.base + 5).
Proof.
  apply (fault_dst_page_start 12).
  - lia.
  - vm_compute. split; [discriminate | reflexivity].
Defined.

Lemma same_page_same_dst_witness :
  uc_dst (mk_uffdio_copy (Scenario.base + 4096) (Scenario.host + 4101) 4096 0 0)
  = uc_dst (mk_uffdio_copy (Scenario.base + 4096) (Scenario.host + 4200) 4096 0 0).
Proof.
  refine (proj1 (same_page_same_dst 12 _ Scenario.latched 7
                   (Scenario.base + 4101) (Scenario.base + 4200) Scenario.no_errno
                   _ _ _ _ _ _ _)).
  - lia.
  - vm_compute. split; [discriminate | reflexivity].
  - vm_compute. split; [discriminate | reflexivity].
  - vm_compute. reflexivity.
  - vm_compute. reflexivity.
  - vm_compute. reflexivity.
Defined.

Lemma extractPageFaultAddress_uffd_msg_witness :
  extractPageFaultAddress 32 x12 (ReadOk (Scenario.uffd_msg x12 Scenario.base))
  = Done Scenario.base.
Proof.
  apply (extractPageFaultAddress_uffd_msg x12 Scenario.base).
  vm_compute. split; [discriminate | reflexivity].
Defined.

Lemma serveEvents_consumes_one_message_per_event_witness :
  w_pending (fst (serveEvents 32 x12 [Scenario.ready7; Scenario.ready7]
                    Scenario.world0)) !! 7
  = drop (length (filter (fun e => Fd e = 7) [Scenario.ready7; Scenario.ready7]))
      <$> w_pending Scenario.world0 !! 7.
Proof.
  refine (proj1 (serveEvents_consumes_one_message_per_event 32 x12
                   [Scenario.ready7; Scenario.ready7] Scenario.world0 _ 7 _)).
  vm_compute. reflexivity.
Defined.
